(** * resilience.js: retry with back-off, deadlines and their notifier

    A shallow embedding of the four source files of the package
    (helpers.js, index.js, retry.js, deadline.js) and the properties of
    its retry engine, deadline wrapper and notifier.

    Conventions of the embedding.
    - JavaScript numbers that the library handles (retry counts,
      milliseconds) are integers, modelled in [Z].  Doubling an integer
      is exact in binary floating point until it overflows to an
      infinity: the schedules are given over binary64 numbers as well
      (module [Binary64]), and are those over [Z] below overflow.
      [undefined] arguments are [None].
    - A timer is described by the delay it is set with.  [Index.delay]
      gives the instant of a timer that waits for its delay as it is,
      which [setTimeout] does for an integer from 1 to [2^31 - 1];
      [More.span] is how long it waits for any delay.
    - Arrays live in a store and are handled through references, so that
      sharing between the engine and the code it calls back is visible.
    - A promise is described by when and how it settles.  A chain of
      continuations runs in the order the source chains them; the effects
      of a run are collected, in order, in a list of events. *)

From stdpp Require Import gmap list numbers strings.

Local Open Scope Z_scope.

(** ** JavaScript values *)

(** The values the library passes around without looking inside: results
    and failures of tasks.  Objects (among them [Error] instances) are
    known by their reference only, which is what [===] compares. *)
Inductive value :=
  | VUndefined
  | VNum (n : Z)
  | VStr (s : string)
  | VObj (ref : nat).

#[global] Instance value_eq_dec : EqDecision value.
Proof. solve_decision. Defined.

(** [a === b] *)
Definition strict_eq (a b : value) : bool := bool_decide (a = b).

(** An argument that is expected to be a function: either one (of the
    embedded function type [F]) or some other value. *)
Inductive arg (F : Type) :=
  | Fn (f : F)
  | NotFn (v : value).
Arguments Fn {F} f.
Arguments NotFn {F} v.

(** An exception thrown synchronously by the library: [new Error(msg)]. *)
Inductive exn := Error (msg : string).

(** [x || d] for a numeric argument that may be missing: [undefined] and
    [0] are falsy. *)
Definition js_or (x : option Z) (d : Z) : Z :=
  match x with
  | Some n => if n =? 0 then d else n
  | None => d
  end.

(** Truthiness of a numeric argument that may be missing. *)
Definition truthy (x : option Z) : bool :=
  match x with
  | Some n => negb (n =? 0)
  | None => false
  end.

(** ** Promises and tasks *)

Inductive settlement :=
  | Fulfill (v : value)
  | Reject (e : value).

(** A promise, seen from outside: it settles [t] milliseconds after it was
    created, or stays pending for ever. *)
Inductive Promise :=
  | Settles (t : Z) (s : settlement)
  | Never.

(** What a call of a task does: it throws, or it returns a value or a
    promise; a plain value [v] is [Settles 0 (Fulfill v)]. *)
Inductive call_result :=
  | Throw (e : value)
  | Return (p : Promise).

(** [new Promise(resolve => resolve(run()))], and likewise [.then(run)]:
    an exception of the call rejects the promise, a returned promise is
    adopted. *)
Definition promise_of_call (r : call_result) : Promise :=
  match r with
  | Throw e => Settles 0 (Reject e)
  | Return p => p
  end.

(** The failure a call ends in, if it does. *)
Definition failure_of (r : call_result) : option value :=
  match promise_of_call r with
  | Settles _ (Reject e) => Some e
  | _ => None
  end.

(** How the promise returned by the library ends. *)
Inductive outcome :=
  | Fulfilled (v : value)
  | Rejected (e : value)
  | Pending.

(** ** helpers.js *)

Module Helpers.
Section Notifier.
(** [F] is the type of the functions the slot can hold. *)
Context {F : Type}.
Variable noop : F.

(** The closure variable [_notify]. *)
Record notifier := { _notify : F }.

Definition createNotifier : notifier := {| _notify := noop |}.

(** [set(notify)], called on the object [this]; returns the state of the
    slot after the call and what the call did. *)
Definition set {P : Type} (this : P) (notify : arg F) (n : notifier)
  : notifier * (exn + P) :=
  match notify with
  | NotFn _ => (n, inl (Error "Expected `notify` to be a function."))
  | Fn f => ({| _notify := f |}, inr this)
  end.

(** [notify(...args)] calls whatever the slot holds at that moment. *)
Definition notify (n : notifier) : F := _notify n.
End Notifier.
Arguments notifier F : clear implicits.
End Helpers.

(** ** index.js *)

Module Index.
(** [new Error('Timed out')], created once when the module is loaded. *)
Definition TimeoutError : value := VObj 0.

(** [delay(ms)]: the promise is fulfilled when the timer set with [ms]
    goes off, [ms] milliseconds later for the delays [setTimeout] waits
    for as they are, from 1 to [2^31 - 1].  For the other delays the
    instant is that of a timer that takes a negative delay as none;
    what [setTimeout] makes of them is [More.span]. *)
Definition delay (ms : option Z) : Promise :=
  Settles (Z.max 0 (default 0 ms)) (Fulfill VUndefined).

(** [p.then(() => Promise.reject(e))] *)
Definition then_reject (p : Promise) (e : value) : Promise :=
  match p with
  | Settles t (Fulfill _) => Settles t (Reject e)
  | _ => p
  end.

(** [Promise.race([p, q])]: the first to settle wins.  [tie] tells
    whether [p] wins when both settle in the same instant after the
    call; settled at once, [p] is the first in the array and wins. *)
Definition race (tie : bool) (p q : Promise) : Promise :=
  match p, q with
  | Never, _ => q
  | _, Never => p
  | Settles t _, Settles t' _ =>
      if t <? t' then p
      else if t' <? t then q
      else if (t =? 0) || tie then p else q
  end.

Definition timeout (tie : bool) (p : Promise) (ms : option Z) : Promise :=
  let delayed := then_reject (delay ms) TimeoutError in
  race tie p delayed.
End Index.

(** ** retry.js *)

Module Retry.
Inductive backoff := CONSTANT | EXPONENTIAL.

Definition DEFAULT_RETRIES : Z := 1.
Definition DEFAULT_INTERVAL : Z := 1000.

(** The loop of [createConstantIntervals] with [n] iterations to go:
    [res.push(interval)]. *)
Fixpoint constant_loop (n : nat) (interval : Z) (res : list Z) : list Z :=
  match n with
  | O => res
  | S n' => constant_loop n' interval (res ++ [interval])
  end.

(** [for (let i = 0; i < retries; i++)] runs [Z.to_nat retries] times. *)
Definition createConstantIntervals (retries interval : Z) : list Z :=
  constant_loop (Z.to_nat retries) interval [].

(** The loop of [createExponentialIntervals] with [n] iterations to go:
    [res.push(next)], then [next *= 2], below overflow (the loop with
    overflow is [Binary64.exponential_loop]). *)
Fixpoint exponential_loop (n : nat) (next : Z) (res : list Z) : list Z :=
  match n with
  | O => res
  | S n' => exponential_loop n' (next * 2) (res ++ [next])
  end.

Definition createExponentialIntervals (retries interval : Z) : list Z :=
  exponential_loop (Z.to_nat retries) interval [].

(** References to arrays in the store. *)
Definition loc := nat.

(** The context object [{ retries: [done, max], intervals: [...] }]:
    two references. *)
Record Ctx := { ctx_retries : loc; ctx_intervals : loc }.

(** What a run of the engine does, in order.  [EvRun r]: the task was
    called and did [r].  [EvTimerStart ms], [EvTimerFire ms]: the timer
    of [delay(ms)] was set, and went off.  [EvNotify rs ivs err thrown]:
    the observer was called with a context whose arrays held [rs] and
    [ivs], and with [err]; it returned ([None]) or threw. *)
Inductive event :=
  | EvRun (r : call_result)
  | EvTimerStart (ms : option Z)
  | EvTimerFire (ms : option Z)
  | EvNotify (snap_retries snap_intervals : list Z) (err : value)
             (thrown : option value).

Section Engine.
(** The state that the caller's code (the task and the observer, which
    may share variables) keeps between calls. *)
Context {U : Type}.

(** [handed] holds the references that were passed to the caller's code:
    the only arrays of the store that code can reach. *)
Record world := {
  user : U;
  heap : gmap loc (list Z);
  handed : gset loc
}.

Definition init (u : U) : world :=
  {| user := u; heap := ∅; handed := ∅ |}.

Definition read (l : loc) (w : world) : list Z := default [] (heap w !! l).

Definition write (l : loc) (a : list Z) (w : world) : world :=
  {| user := user w; heap := <[l := a]> (heap w); handed := handed w |}.

(** A new array. *)
Definition alloc (a : list Z) (w : world) : loc * world :=
  let l := fresh (dom (heap w)) in (l, write l a w).

(** A task takes no argument. *)
Definition task := U → call_result * U.

Definition invoke (fn : task) (w : world) : call_result * world :=
  let '(r, u) := fn (user w) in
  (r, {| user := u; heap := heap w; handed := handed w |}).

(** What a call of the observer does: it updates the caller's state,
    assigns new contents to arrays, and returns or throws. *)
Record reaction := {
  r_user : U;
  r_writes : gmap loc (list Z);
  r_throws : option value
}.

(** An observer [(context, error) => ...] sees the context it is given
    (the references and what the arrays hold), the error and the
    caller's state.  A callback that registers another callback while
    it runs is one observer that switches on the caller's state. *)
Definition observer := Ctx → list Z → list Z → value → U → reaction.

(** [function noop() {}] *)
Definition noop : observer :=
  λ _ _ _ _ u, {| r_user := u; r_writes := ∅; r_throws := None |}.

(** Assignments take effect on the arrays the caller's code holds a
    reference to, and on no other. *)
Definition confine (allowed : gset loc) (writes h : gmap loc (list Z))
  : gmap loc (list Z) :=
  filter (λ kv, kv.1 ∈ allowed) writes ∪ h.

(** [notify(ctxClone, err)] *)
Definition call_observer (notify : observer) (clone : Ctx) (err : value)
    (w : world) : event * option value * world :=
  let allowed := {[ctx_retries clone; ctx_intervals clone]} ∪ handed w in
  let rs := read (ctx_retries clone) w in
  let ivs := read (ctx_intervals clone) w in
  let re := notify clone rs ivs err (user w) in
  (EvNotify rs ivs err (r_throws re), r_throws re,
   {| user := r_user re;
      heap := confine allowed (r_writes re) (heap w);
      handed := allowed |}).

(** [createContext(type, retries, interval)] *)
Definition createContext (type : backoff) (retries interval : Z)
    (w : world) : Ctx * world :=
  let createIntervals :=
    match type with
    | EXPONENTIAL => createExponentialIntervals
    | CONSTANT => createConstantIntervals
    end in
  let '(r, w1) := alloc [0; js_or (Some retries) 0] w in
  let '(i, w2) := alloc (createIntervals retries interval) w1 in
  ({| ctx_retries := r; ctx_intervals := i |}, w2).

(** [cloneContext(ctx)]: a new object with [slice(0)] of both arrays. *)
Definition cloneContext (ctx : Ctx) (w : world) : Ctx * world :=
  let '(r, w1) := alloc (read (ctx_retries ctx) w) w in
  let '(i, w2) := alloc (read (ctx_intervals ctx) w1) w1 in
  ({| ctx_retries := r; ctx_intervals := i |}, w2).

(** [a.shift()] on the array at [l]. *)
Definition shift (l : loc) (w : world) : option Z * world :=
  match read l w with
  | [] => (None, w)
  | x :: rest => (Some x, write l rest w)
  end.

Definition prepend {A B : Type} (evs : list event)
    (k : option (list event * A * B)) : option (list event * A * B) :=
  '(tr, a, b) ← k; Some (evs ++ tr, a, b).

(** [handle(fn, notify, ctx)(err)], with the chain
    [delay(..).then(notify..).then(fn).catch(handle(..))] run to its
    end.  The recursion of the source is through the [catch]; [fuel]
    bounds its depth. *)
Fixpoint handle (fuel : nat) (fn : task) (notify : observer) (ctx : Ctx)
    (err : value) (w : world) : option (list event * outcome * world) :=
  match fuel with
  | O => None
  | S fuel' =>
    match read (ctx_retries ctx) w with
    | done :: max :: _ =>
      if done <? max then
        (* ctx.retries[0]++ *)
        let w1 := write (ctx_retries ctx)
                    (<[0%nat := done + 1]> (read (ctx_retries ctx) w)) w in
        let '(ctxClone, w2) := cloneContext ctx w1 in
        let '(d, w3) := shift (ctx_intervals ctx) w2 in
        (* delay(d), then notify(ctxClone, err) *)
        let '(ev, thrown, w4) := call_observer notify ctxClone err w3 in
        let evs := [EvTimerStart d; EvTimerFire d; ev] in
        match thrown with
        | Some e =>
          (* then(fn) is skipped, catch(handle(..)) gets [e] *)
          prepend evs (handle fuel' fn notify ctx e w4)
        | None =>
          (* then(fn) *)
          let '(r, w5) := invoke fn w4 in
          match promise_of_call r with
          | Settles _ (Fulfill v) => Some (evs ++ [EvRun r], Fulfilled v, w5)
          | Settles _ (Reject e) =>
            prepend (evs ++ [EvRun r]) (handle fuel' fn notify ctx e w5)
          | Never => Some (evs ++ [EvRun r], Pending, w5)
          end
        end
      else Some ([], Rejected err, w)
    | _ =>
      (* a missing entry is [undefined], and [done < max] is false *)
      Some ([], Rejected err, w)
    end
  end.

(** The promise [retry] returns, with its [notify] setter: the task, the
    context, what the first call did, and the notifier. *)
Record retrying := {
  rt_run : task;
  rt_ctx : Ctx;
  rt_first : call_result;
  rt_notifier : Helpers.notifier observer
}.

(** [retry(type, run, retries, interval)]: the task is called once
    before [retry] returns. *)
Definition retry (type : backoff) (run : arg task)
    (retries interval : option Z) (w : world) : exn + retrying * world :=
  match run with
  | NotFn _ => inl (Error "Expected `run` to be a function.")
  | Fn run =>
    let retries := js_or retries DEFAULT_RETRIES in
    let interval := js_or interval DEFAULT_INTERVAL in
    let '(ctx, w1) := createContext type retries interval w in
    let notifier := Helpers.createNotifier noop in
    let '(r, w2) := invoke run w1 in
    inr ({| rt_run := run; rt_ctx := ctx; rt_first := r;
            rt_notifier := notifier |}, w2)
  end.

Definition exponentialRetry := retry EXPONENTIAL.
Definition constantRetry := retry CONSTANT.

(** [promise.notify(f)]: [notifier.set] called on the promise.  The
    promise is one object whatever its slot holds: [this] is the promise
    as a function of the slot, and what [set] returns is read with the
    slot as [set] left it. *)
Definition register (p : retrying) (f : arg observer)
  : retrying * (exn + retrying) :=
  let this n :=
    {| rt_run := rt_run p; rt_ctx := rt_ctx p; rt_first := rt_first p;
       rt_notifier := n |} in
  let '(n, res) := Helpers.set this f (rt_notifier p) in
  (this n, match res with inl e => inl e | inr self => inr (self n) end).

(** How the returned promise settles:
    [promise.catch(handle(run, notifier.notify, ctx))]. *)
Definition settle (fuel : nat) (p : retrying) (w : world)
  : option (list event * outcome * world) :=
  match promise_of_call (rt_first p) with
  | Settles _ (Fulfill v) => Some ([], Fulfilled v, w)
  | Settles _ (Reject e) =>
    handle fuel (rt_run p) (Helpers.notify (rt_notifier p)) (rt_ctx p) e w
  | Never => Some ([], Pending, w)
  end.

(** A whole use of the engine, as in the package's tests:
    [constantRetry(run, retries, interval).notify(f)], awaited, or the
    same with [exponentialRetry].  With [f = None] no observer is
    registered.  The result is the exception thrown at the call, or the
    events and the outcome of the promise ([None] when [fuel] is too
    small to reach it). *)
Definition session (fuel : nat) (type : backoff) (run : arg task)
    (retries interval : option Z) (f : option observer) (u : U)
  : exn + option (list event * outcome * world) :=
  let exported :=
    match type with
    | CONSTANT => constantRetry
    | EXPONENTIAL => exponentialRetry
    end in
  match exported run retries interval (init u) with
  | inl e => inl e
  | inr (p, w) =>
    let p' := match f with
              | Some f => (register p (Fn f)).1
              | None => p
              end in
    inr (prepend [EvRun (rt_first p')] (settle fuel p' w))
  end.
End Engine.
Arguments world U : clear implicits.
Arguments task U : clear implicits.
Arguments observer U : clear implicits.
Arguments reaction U : clear implicits.
Arguments retrying U : clear implicits.
End Retry.

(** ** retry.js: the schedules over binary64 numbers *)

(** The numbers of JavaScript are binary64.  Doubling one keeps its
    digits and raises its exponent by one, which is exact until the
    exponent runs out: a result of magnitude [2^1024] or more is an
    infinity, and an infinity doubled is itself. *)
Module Binary64.
(** The magnitude from which on a number is an infinity. *)
Definition overflow : Z := 2 ^ 1024.

(** The integers that binary64 holds: 53 binary digits scaled by a power
    of two, below [overflow]. *)
Definition held (z : Z) : Prop :=
  ∃ m e, z = m * 2 ^ e ∧ Z.abs m < 2 ^ 53 ∧ 0 ≤ e ∧ Z.abs z < overflow.

(** An integer that binary64 holds, [Infinity] or [-Infinity]. *)
Inductive number :=
  | Num (z : Z)
  | PosInf
  | NegInf.

(** [x * 2] *)
Definition double (x : number) : number :=
  match x with
  | Num z =>
      if overflow <=? 2 * z then PosInf
      else if 2 * z <=? - overflow then NegInf
      else Num (2 * z)
  | PosInf => PosInf
  | NegInf => NegInf
  end.

(** The loop of [createConstantIntervals]: [res.push(interval)]. *)
Fixpoint constant_loop (n : nat) (interval : number) (res : list number)
  : list number :=
  match n with
  | O => res
  | S n' => constant_loop n' interval (res ++ [interval])
  end.

Definition createConstantIntervals (retries : Z) (interval : number)
  : list number :=
  constant_loop (Z.to_nat retries) interval [].

(** The loop of [createExponentialIntervals]: [res.push(next)], then
    [next *= 2]. *)
Fixpoint exponential_loop (n : nat) (next : number) (res : list number)
  : list number :=
  match n with
  | O => res
  | S n' => exponential_loop n' (double next) (res ++ [next])
  end.

Definition createExponentialIntervals (retries : Z) (interval : number)
  : list number :=
  exponential_loop (Z.to_nat retries) interval [].

(** [i × 2^k] as binary64 has it. *)
Definition scaled (i k : Z) : number :=
  if Z.abs i * 2 ^ k <? overflow then Num (i * 2 ^ k)
  else if 0 <? i then PosInf else NegInf.
End Binary64.

(** ** deadline.js *)

Module Deadline.
Section Wrapper.
Context {U : Type}.

(** Who wins when the task and the timer settle in the same instant. *)
Variable tie : bool.

Definition task := U → call_result * U.

(** An observer [ms => ...] updates the caller's state and returns or
    throws. *)
Definition observer := Z → U → U * option value.

(** [function noop() {}] *)
Definition noop : observer := λ _ u, (u, None).

(** [handle(promise, ms, notify)]: the arguments the observer was called
    with, the promise returned and the caller's state. *)
Definition handle (promise : Promise) (ms : Z) (notify : observer) (u : U)
  : list Z * Promise * U :=
  match Index.timeout tie promise (Some ms) with
  | Settles t (Reject err) =>
    if strict_eq err Index.TimeoutError then
      let '(u', thrown) := notify ms u in
      (* an exception of the handler replaces [Promise.reject(err)] *)
      ([ms], Settles t (Reject (default err thrown)), u')
    else ([], Settles t (Reject err), u)
  | p => ([], p, u)
  end.

(** The promise [deadline] returns, with its [notify] setter. *)
Record deadlined := {
  dl_promise : Promise;
  dl_ms : option Z;
  dl_notifier : Helpers.notifier observer
}.

(** [deadline(run, ms)]: the task is called before [deadline] returns. *)
Definition deadline (run : arg task) (ms : option Z) (u : U)
  : exn + deadlined * U :=
  match run with
  | NotFn _ => inl (Error "Expected `run` to be a function.")
  | Fn run =>
    let notifier := Helpers.createNotifier noop in
    let '(r, u') := run u in
    inr ({| dl_promise := promise_of_call r; dl_ms := ms;
            dl_notifier := notifier |}, u')
  end.

(** [promise.notify(f)] *)
Definition register (p : deadlined) (f : arg observer)
  : deadlined * (exn + deadlined) :=
  let this n :=
    {| dl_promise := dl_promise p; dl_ms := dl_ms p; dl_notifier := n |} in
  let '(n, res) := Helpers.set this f (dl_notifier p) in
  (this n, match res with inl e => inl e | inr self => inr (self n) end).

(** How the returned promise settles:
    [ms ? handle(promise, ms, notifier.notify) : promise]. *)
Definition settle (p : deadlined) (u : U) : list Z * Promise * U :=
  if truthy (dl_ms p)
  then handle (dl_promise p) (default 0 (dl_ms p))
              (Helpers.notify (dl_notifier p)) u
  else ([], dl_promise p, u).

(** [deadline(run, ms).notify(f)], awaited. *)
Definition session (run : arg task) (ms : option Z) (f : option observer)
    (u : U) : exn + list Z * Promise * U :=
  match deadline run ms u with
  | inl e => inl e
  | inr (p, u') =>
    let p' := match f with
              | Some f => (register p (Fn f)).1
              | None => p
              end in
    inr (settle p' u')
  end.
End Wrapper.
Arguments task U : clear implicits.
Arguments observer U : clear implicits.
Arguments deadlined U : clear implicits.
End Deadline.

(** * Vocabulary of the properties *)

(** ** Observations on a run of the retry engine *)

Module Trace.
Import Retry.

Definition is_run (e : event) : bool :=
  match e with EvRun _ => true | _ => false end.
Definition is_timer_start (e : event) : bool :=
  match e with EvTimerStart _ => true | _ => false end.
Definition is_notify (e : event) : bool :=
  match e with EvNotify _ _ _ _ => true | _ => false end.

(** How many events of a kind a run has. *)
Fixpoint count (p : event → bool) (tr : list event) : nat :=
  match tr with
  | [] => 0
  | e :: tr' => (if p e then 1 else 0) + count p tr'
  end.

(** The contexts the observer was given, in order: what the two arrays
    held at each call. *)
Fixpoint snapshots (tr : list event) : list (list Z * list Z) :=
  match tr with
  | [] => []
  | EvNotify rs ivs _ _ :: tr' => (rs, ivs) :: snapshots tr'
  | _ :: tr' => snapshots tr'
  end.

(** The delays waited for, in order. *)
Fixpoint timers (tr : list event) : list (option Z) :=
  match tr with
  | [] => []
  | EvTimerStart d :: tr' => d :: timers tr'
  | _ :: tr' => timers tr'
  end.

(** What the calls of the task did, in order. *)
Fixpoint calls (tr : list event) : list call_result :=
  match tr with
  | [] => []
  | EvRun r :: tr' => r :: calls tr'
  | _ :: tr' => calls tr'
  end.

(** The schedule of a back-off type. *)
Definition schedule (type : backoff) (retries interval : Z) : list Z :=
  match type with
  | CONSTANT => createConstantIntervals retries interval
  | EXPONENTIAL => createExponentialIntervals retries interval
  end.

(** The context the observer is shown at retry [k] (from 0) of a
    schedule: the counter already at [k + 1], the intervals from the
    [k]-th on. *)
Definition shown (max : Z) (sched : list Z) (k : nat)
  : list Z * list Z :=
  ([Z.of_nat k + 1; max], drop k sched).
End Trace.

(** ** The shape of a run of the retry engine *)

Section Shape.
Import Retry Trace.
Context {U : Type}.
Implicit Types (w : world U) (ctx : Ctx) (fn : task U) (notify : observer U).

(** The engine's hold on its context: the two arrays are distinct, hold
    [rs] and [ivs], and no reference to them was passed to the caller's
    code, which reaches only arrays of the store. *)
Definition owns ctx w (rs ivs : list Z) : Prop :=
  (heap w !! ctx_retries ctx = Some rs) ∧
  (heap w !! ctx_intervals ctx = Some ivs) ∧
  ctx_retries ctx ≠ ctx_intervals ctx ∧
  (ctx_retries ctx ∉ handed w) ∧
  (ctx_intervals ctx ∉ handed w) ∧
  handed w ⊆ dom (heap w).

(** [r] is something a call of the task can do; [thrown] is a way a call
    of the observer can end. *)
Definition does fn (r : call_result) : Prop := ∃ u, (fn u).1 = r.
Definition reacts notify (thrown : option value) : Prop :=
  ∃ c rs ivs e u, r_throws (notify c rs ivs e u) = thrown.

Definition never_throws notify : Prop :=
  ∀ c rs ivs e u, r_throws (notify c rs ivs e u) = None.
Definition always_fails fn : Prop :=
  ∀ u, is_Some (failure_of (fn u).1).

(** The events and the outcome of [handle] entered with failure [err],
    counter [done] and intervals [ivs] left: one round per interval,
    each a delay, a notification and, unless the observer threw, a call
    of the task. *)
Inductive rounds fn notify (max : Z)
  : Z → list Z → value → list event → outcome → Prop :=
  | rounds_exhausted done err :
      rounds fn notify max done [] err [] (Rejected err)
  | rounds_observer_throws done d ivs err e tr out :
      reacts notify (Some e) →
      rounds fn notify max (done + 1) ivs e tr out →
      rounds fn notify max done (d :: ivs) err
        (EvTimerStart (Some d) :: EvTimerFire (Some d)
           :: EvNotify [done + 1; max] (d :: ivs) err (Some e) :: tr) out
  | rounds_rerun_fails done d ivs err r e tr out :
      reacts notify None → does fn r →
      failure_of r = Some e →
      rounds fn notify max (done + 1) ivs e tr out →
      rounds fn notify max done (d :: ivs) err
        (EvTimerStart (Some d) :: EvTimerFire (Some d)
           :: EvNotify [done + 1; max] (d :: ivs) err None
           :: EvRun r :: tr) out
  | rounds_rerun_fulfils done d ivs err r t v :
      reacts notify None → does fn r →
      promise_of_call r = Settles t (Fulfill v) →
      rounds fn notify max done (d :: ivs) err
        [EvTimerStart (Some d); EvTimerFire (Some d);
         EvNotify [done + 1; max] (d :: ivs) err None; EvRun r]
        (Fulfilled v)
  | rounds_rerun_hangs done d ivs err r :
      reacts notify None → does fn r →
      promise_of_call r = Never →
      rounds fn notify max done (d :: ivs) err
        [EvTimerStart (Some d); EvTimerFire (Some d);
         EvNotify [done + 1; max] (d :: ivs) err None; EvRun r]
        Pending.

(** The events and the outcome of a whole session. *)
Inductive attempts fn notify (max : Z) (sched : list Z)
  : list event → outcome → Prop :=
  | first_fulfils r t v :
      does fn r → promise_of_call r = Settles t (Fulfill v) →
      attempts fn notify max sched [EvRun r] (Fulfilled v)
  | first_hangs r :
      does fn r → promise_of_call r = Never →
      attempts fn notify max sched [EvRun r] Pending
  | first_fails r e tr out :
      does fn r → failure_of r = Some e →
      rounds fn notify max 0 sched e tr out →
      attempts fn notify max sched (EvRun r :: tr) out.

(** *** Orders of events *)

(** The failure an event ends in, if any: the failure of a call of the
    task, or what the observer threw. *)
Definition cause (ev : event) : option value :=
  match ev with
  | EvRun r => failure_of r
  | EvNotify _ _ _ thrown => thrown
  | _ => None
  end.

(** Each call of the observer comes right after the timer of a delay was
    set and went off; that delay is the interval at the front of the
    context the observer is shown, and the error it is given is the
    failure of the event before the delay. *)
Definition notified_after_delay (tr : list event) : Prop :=
  ∀ pre rs ivs err thrown post,
    tr = pre ++ EvNotify rs ivs err thrown :: post →
    ∃ pre' d rest ev,
      pre = pre' ++ [EvTimerStart (Some d); EvTimerFire (Some d)]
      ∧ ivs = d :: rest
      ∧ last pre' = Some ev ∧ cause ev = Some err.

(** Each call of the task but the first comes right after a call of the
    observer that returned. *)
Definition rerun_after_notified (tr : list event) : Prop :=
  ∀ pre r post,
    tr = pre ++ EvRun r :: post →
    pre = [] ∨ ∃ pre' rs ivs err, pre = pre' ++ [EvNotify rs ivs err None].

(** The order in which the observer would be called before the delay of
    its retry begins: at each call of the observer, as many timers were
    set as there were calls of the observer before. *)
Definition notified_before_delay (tr : list event) : Prop :=
  ∀ pre rs ivs err thrown post,
    tr = pre ++ EvNotify rs ivs err thrown :: post →
    count is_timer_start pre = count is_notify pre.

(** *** Two runs side by side *)


(** Two worlds that differ at most in arrays the caller's code holds. *)
Definition agree (w1 w2 : world U) : Prop :=
  user w1 = user w2 ∧ handed w1 = handed w2 ∧
  dom (heap w1) = dom (heap w2) ∧
  ∀ l, l ∉ handed w1 → heap w1 !! l = heap w2 !! l.


(** *** Tasks that throw *)

(** [Promise.reject(e)] returned where the call throws [e]. *)
Definition rejection_of (r : call_result) : call_result :=
  match r with
  | Throw e => Return (Settles 0 (Reject e))
  | Return p => Return p
  end.

(** The task that returns a rejected promise where [fn] throws:
    [() => { try { return fn() } catch (e) { return Promise.reject(e) } }]. *)
Definition rejecting (fn : U → call_result * U) : U → call_result * U :=
  λ u, let '(r, u') := fn u in (rejection_of r, u').

(** The events of a run, with that task in the place of [fn]. *)
Definition as_promise (e : event) : event :=
  match e with
  | EvRun r => EvRun (rejection_of r)
  | _ => e
  end.

Definition as_promises (x : list event * outcome * world U)
  : list event * outcome * world U :=
  (as_promise <$> x.1.1, x.1.2, x.2).
End Shape.

(** ** Deadlines *)

(** The timer of [ms] goes off before the promise settles. *)
Definition timer_first (p : Promise) (ms : Z) : Prop :=
  match p with
  | Never => True
  | Settles t _ => ms < t
  end.

(** ** Sample tasks and observers *)

Module Samples.
(** An [Error] object. *)
Definition boom : value := VObj 1.

(** [() => Promise.reject(boom)] *)
Definition failing : Retry.task unit :=
  λ u, (Return (Settles 0 (Reject boom)), u).

(** [() => { throw 'observer' }] *)
Definition throwing : Retry.observer unit :=
  λ _ _ _ _ u,
    {| Retry.r_user := u; Retry.r_writes := ∅;
       Retry.r_throws := Some (VStr "observer") |}.


(** [() => Promise.reject(TimeoutError)] *)
Definition timing_out {U : Type} : Deadline.task U :=
  λ u, (Return (Settles 0 (Reject Index.TimeoutError)), u).

(** [ms => seen.unshift(ms)] *)
Definition recording : Deadline.observer (list Z) :=
  λ ms seen, (ms :: seen, None).
End Samples.

(** ** More observations and samples *)

Module More.
Import Retry Trace.

(** The sum of a list of durations. *)
Fixpoint total (l : list Z) : Z :=
  match l with
  | [] => 0
  | x :: l' => x + total l'
  end.

(** How long the timer of [setTimeout(f, ms)] lasts: [ms] milliseconds
    for an integer from 1 to [2^31 - 1], and 1 millisecond for anything
    else (a missing, zero or negative delay, or one that does not fit a
    signed 32-bit integer). *)
Definition span (ms : option Z) : Z :=
  match ms with
  | Some d => if (1 <=? d) && (d <=? 2 ^ 31 - 1) then d else 1
  | None => 1
  end.

(** The time a run spent waiting between attempts. *)
Definition waited (tr : list event) : Z := total (span <$> timers tr).

(** A call that ends in a failure. *)
Definition failed (r : call_result) : Prop := is_Some (failure_of r).

(** What a promise that is not rejected comes to. *)
Definition outcome_of (p : Promise) : outcome :=
  match p with
  | Settles _ (Fulfill v) => Fulfilled v
  | Settles _ (Reject e) => Rejected e
  | Never => Pending
  end.

(** The instant a promise settles at, if it does. *)
Definition settled_at (p : Promise) : option Z :=
  match p with
  | Settles t _ => Some t
  | Never => None
  end.

(** [() => ++runs === 3 ? 'fulfilled' : Promise.reject(boom)], with the
    counter [runs] as the caller's state. *)
Definition third : task nat :=
  λ runs,
    (if (S runs =? 3)%nat
     then Return (Settles 0 (Fulfill (VStr "fulfilled")))
     else Return (Settles 0 (Reject Samples.boom)),
     S runs).

(** A context and a store that holds its two arrays. *)
Definition a_context : Ctx :=
  {| ctx_retries := 0%nat; ctx_intervals := 1%nat |}.
Definition a_world : world unit :=
  {| user := tt;
     heap := {[ 0%nat := [1; 2]; 1%nat := [10; 10] ]};
     handed := ∅ |}.

(** [() => { throw boom }] *)
Definition crashing {U : Type} : U → call_result * U :=
  λ u, (Throw Samples.boom, u).

(** [() => 'test'] *)
Definition succeeding {U : Type} : U → call_result * U :=
  λ u, (Return (Settles 0 (Fulfill (VStr "test"))), u).

(** [() => delay(1000)] *)
Definition slow {U : Type} : Deadline.task U :=
  λ u, (Return (Index.delay (Some 1000)), u).

End More.

(** * Properties *)

(** ** The store and the engine's hold on its context *)

Section ShapeFacts.
Import Retry Trace.
Context {U : Type}.
Implicit Types (w : world U) (ctx : Ctx) (fn : task U) (notify : observer U).

Lemma owns_read_retries ctx w rs ivs :
  owns ctx w rs ivs → read (ctx_retries ctx) w = rs.
Proof. intros (H & _). unfold read. by rewrite H. Qed.

Lemma owns_read_intervals ctx w rs ivs :
  owns ctx w rs ivs → read (ctx_intervals ctx) w = ivs.
Proof. intros (_ & H & _). unfold read. by rewrite H. Qed.

Lemma owns_write_retries ctx w rs ivs rs' :
  owns ctx w rs ivs → owns ctx (write (ctx_retries ctx) rs' w) rs' ivs.
Proof.
  intros (Hr & Hi & Hne & Hpr & Hpi & Hsub). unfold owns, write; simpl.
  rewrite lookup_insert_eq, lookup_insert_ne by done.
  repeat split; try done. set_solver.
Qed.

Lemma owns_write_intervals ctx w rs ivs ivs' :
  owns ctx w rs ivs → owns ctx (write (ctx_intervals ctx) ivs' w) rs ivs'.
Proof.
  intros (Hr & Hi & Hne & Hpr & Hpi & Hsub). unfold owns, write; simpl.
  rewrite lookup_insert_eq, lookup_insert_ne by done.
  repeat split; try done. set_solver.
Qed.

Lemma alloc_spec a w l w' :
  alloc a w = (l, w') →
  heap w !! l = None ∧ heap w' = <[l := a]> (heap w) ∧
  handed w' = handed w ∧ user w' = user w.
Proof.
  unfold alloc. intros [= <- <-]. simpl. split; [|done].
  apply not_elem_of_dom, is_fresh.
Qed.

Lemma owns_alloc ctx w rs ivs a l w' :
  owns ctx w rs ivs → alloc a w = (l, w') →
  owns ctx w' rs ivs ∧ l ≠ ctx_retries ctx ∧ l ≠ ctx_intervals ctx.
Proof.
  intros (Hr & Hi & Hne & Hpr & Hpi & Hsub) (Hl & Hh & Hd & _)%alloc_spec.
  assert (l ≠ ctx_retries ctx) by congruence.
  assert (l ≠ ctx_intervals ctx) by congruence.
  unfold owns. rewrite Hh, !lookup_insert_ne by done. rewrite Hd.
  repeat split; try done. set_solver.
Qed.

(** The clone is made of two new arrays with the contents of the
    context's. *)
Lemma owns_cloneContext ctx w rs ivs clone w' :
  owns ctx w rs ivs → cloneContext ctx w = (clone, w') →
  owns ctx w' rs ivs
  ∧ heap w' !! ctx_retries clone = Some rs
  ∧ heap w' !! ctx_intervals clone = Some ivs
  ∧ ctx_retries clone ≠ ctx_intervals ctx
  ∧ ctx_intervals clone ≠ ctx_intervals ctx
  ∧ ctx_retries clone ≠ ctx_retries ctx
  ∧ ctx_intervals clone ≠ ctx_retries ctx
  ∧ (ctx_retries clone ∉ handed w')
  ∧ (ctx_intervals clone ∉ handed w').
Proof.
  intros Ho. unfold cloneContext.
  destruct (alloc (read (ctx_retries ctx) w) w) as [r w1] eqn:Hr.
  destruct (alloc (read (ctx_intervals ctx) w1) w1) as [i w2] eqn:Hi.
  intros [= <- <-].
  destruct (owns_alloc _ _ _ _ _ _ _ Ho Hr) as (Ho1 & Hr1 & Hr2).
  destruct (owns_alloc _ _ _ _ _ _ _ Ho1 Hi) as (Ho2 & Hi1 & Hi2).
  rewrite (owns_read_retries _ _ _ _ Ho) in Hr.
  rewrite (owns_read_intervals _ _ _ _ Ho1) in Hi.
  apply alloc_spec in Hr as (Hfr & Hh1 & Hd1 & Hu1).
  apply alloc_spec in Hi as (Hfi & Hh2 & Hd2 & Hu2).
  assert (i ≠ r).
  { intros ->. rewrite Hh1, lookup_insert_eq in Hfi. done. }
  destruct Ho as (_ & _ & _ & _ & _ & Hsub).
  assert (heap w !! i = None).
  { rewrite Hh1, lookup_insert_ne in Hfi; done. }
  apply not_elem_of_dom in Hfr.
  assert (i ∉ dom (heap w)) by by apply not_elem_of_dom.
  simpl. split; [done|]. rewrite Hh2, Hh1, Hd2, Hd1.
  rewrite lookup_insert_eq, lookup_insert_ne, lookup_insert_eq by done.
  repeat split; try done; set_solver.
Qed.

Lemma owns_shift ctx w rs d ivs :
  owns ctx w rs (d :: ivs) →
  shift (ctx_intervals ctx) w = (Some d, write (ctx_intervals ctx) ivs w).
Proof.
  intros Ho. unfold shift. by rewrite (owns_read_intervals _ _ _ _ Ho).
Qed.

Lemma confine_lookup_other allowed (writes h : gmap loc (list Z)) l :
  l ∉ allowed → confine allowed writes h !! l = h !! l.
Proof.
  intros Hl. unfold confine. apply lookup_union_r.
  apply map_lookup_filter_None. right. intros x _ Hin. done.
Qed.

Lemma confine_dom allowed (writes h : gmap loc (list Z)) :
  allowed ⊆ dom h → dom (confine allowed writes h) = dom h.
Proof.
  intros Hsub. unfold confine. rewrite dom_union_L.
  assert (dom (filter (λ kv, kv.1 ∈ allowed) writes) ⊆ dom h); [|set_solver].
  intros l [x Hx]%elem_of_dom.
  apply map_lookup_filter_Some in Hx as [_ Hx]. simpl in Hx. set_solver.
Qed.

(** Whatever the observer assigns, the arrays of the engine's context
    hold what they held. *)
Lemma owns_call_observer notify ctx clone err w rs ivs a b :
  owns ctx w rs ivs →
  heap w !! ctx_retries clone = Some a →
  heap w !! ctx_intervals clone = Some b →
  ctx_retries clone ≠ ctx_retries ctx →
  ctx_retries clone ≠ ctx_intervals ctx →
  ctx_intervals clone ≠ ctx_retries ctx →
  ctx_intervals clone ≠ ctx_intervals ctx →
  let re := notify clone a b err (user w) in
  ∃ w', call_observer notify clone err w
        = (EvNotify a b err (r_throws re), r_throws re, w')
    ∧ owns ctx w' rs ivs ∧ user w' = r_user re.
Proof.
  intros (Hr & Hi & Hne & Hpr & Hpi & Hsub) Ha Hb H1 H2 H3 H4 re.
  unfold call_observer, read. rewrite Ha, Hb. simpl. fold re.
  eexists. split; [reflexivity|]. split; [|done].
  assert (ctx_retries clone ∈ dom (heap w)) by (apply elem_of_dom; eauto).
  assert (ctx_intervals clone ∈ dom (heap w)) by (apply elem_of_dom; eauto).
  unfold owns; simpl.
  rewrite !confine_lookup_other by set_solver.
  rewrite confine_dom by set_solver.
  repeat split; try done; set_solver.
Qed.

Lemma owns_invoke fn ctx w rs ivs :
  owns ctx w rs ivs →
  ∃ w', invoke fn w = ((fn (user w)).1, w') ∧ owns ctx w' rs ivs
        ∧ user w' = (fn (user w)).2.
Proof.
  intros Ho. unfold invoke. destruct (fn (user w)) as [r u].
  eexists. split; [reflexivity|]. done.
Qed.

Lemma handle_rounds fn notify ctx fuel : ∀ ivs done max err w,
  owns ctx w [done; max] ivs →
  Z.of_nat (length ivs) = Z.max 0 (max - done) →
  (length ivs < fuel)%nat →
  ∃ tr out w', handle fuel fn notify ctx err w = Some (tr, out, w')
    ∧ rounds fn notify max done ivs err tr out.
Proof.
  induction fuel as [|fuel IH]; intros ivs done max err w Ho Hlen Hfuel;
    [lia|].
  cbn [handle]. rewrite (owns_read_retries _ _ _ _ Ho).
  destruct (done <? max) eqn:Hlt.
  2:{ apply Z.ltb_ge in Hlt. destruct ivs; [|simpl in Hlen; lia].
      eexists _, _, _. split; [reflexivity|]. constructor. }
  apply Z.ltb_lt in Hlt.
  destruct ivs as [|d ivs]; [simpl in Hlen; lia|].
  change (<[0%nat:=done + 1]> [done; max]) with [done + 1; max].
  pose proof (owns_write_retries _ _ _ _ [done + 1; max] Ho) as Ho1.
  destruct (cloneContext ctx _) as [clone w2] eqn:Hclone.
  apply (owns_cloneContext _ _ _ _ _ _ Ho1) in Hclone
    as (Ho2 & Hcr & Hci & Hn1 & Hn2 & Hn3 & Hn4 & _ & _).
  rewrite (owns_shift _ _ _ _ _ Ho2).
  pose proof (owns_write_intervals _ _ _ _ ivs Ho2) as Ho3.
  edestruct (owns_call_observer notify ctx clone err _ _ _
               [done + 1; max] (d :: ivs) Ho3)
    as (w4 & -> & Ho4 & Hu4); try done.
  { simpl. by rewrite lookup_insert_ne. }
  { simpl. by rewrite lookup_insert_ne. }
  assert (Hlen' : Z.of_nat (length ivs) = Z.max 0 (max - (done + 1)))
    by (simpl in Hlen; lia).
  assert (Hfuel' : (length ivs < fuel)%nat) by (simpl in Hfuel; lia).
  match goal with |- context [r_throws ?x] => set (re := x) in * end.
  assert (Hre : reacts notify (r_throws re)) by (do 5 eexists; reflexivity).
  destruct (r_throws re) as [e|].
  - destruct (IH ivs (done + 1) max e w4 Ho4 Hlen' Hfuel')
      as (tr & out & w' & -> & Hrounds).
    eexists _, _, _. split; [reflexivity|]. by apply rounds_observer_throws.
  - destruct (owns_invoke fn _ _ _ _ Ho4) as (w5 & -> & Ho5 & _).
    set (r := (fn (user w4)).1).
    assert (Hr : does fn r) by (eexists; reflexivity).
    destruct (promise_of_call r) as [t [v|e]|] eqn:Hp.
    + eexists _, _, _. split; [reflexivity|]. by eapply rounds_rerun_fulfils.
    + destruct (IH ivs (done + 1) max e w5 Ho5 Hlen' Hfuel')
        as (tr & out & w' & -> & Hrounds).
      eexists _, _, _. split; [reflexivity|].
      apply rounds_rerun_fails with (e := e); try done.
      unfold failure_of. by rewrite Hp.
    + eexists _, _, _. split; [reflexivity|]. by apply rounds_rerun_hangs.
Qed.

Lemma constant_loop_spec n interval res :
  constant_loop n interval res = res ++ replicate n interval.
Proof.
  revert res. induction n as [|n IH]; intros res; simpl.
  - by rewrite app_nil_r.
  - by rewrite IH, <- app_assoc.
Qed.

Lemma exponential_loop_length n next res :
  length (exponential_loop n next res) = (length res + n)%nat.
Proof.
  revert next res. induction n as [|n IH]; intros next res; simpl; [lia|].
  rewrite IH, length_app. simpl. lia.
Qed.

Lemma exponential_loop_lookup_old n next res k :
  (k < length res)%nat → exponential_loop n next res !! k = res !! k.
Proof.
  revert next res. induction n as [|n IH]; intros next res Hk; simpl; [done|].
  rewrite IH by (rewrite length_app; simpl; lia). by rewrite lookup_app_l.
Qed.

Lemma exponential_loop_lookup_new n next res k :
  (k < n)%nat →
  exponential_loop n next res !! (length res + k)%nat
  = Some (next * 2 ^ Z.of_nat k).
Proof.
  revert next res k. induction n as [|n IH]; intros next res k Hk; [lia|].
  simpl. destruct k as [|k].
  - rewrite exponential_loop_lookup_old by (rewrite length_app; simpl; lia).
    rewrite Nat.add_0_r, lookup_app_r, Nat.sub_diag by lia. simpl.
    f_equal. lia.
  - replace (length res + S k)%nat with (length (res ++ [next]) + k)%nat
      by (rewrite length_app; simpl; lia).
    rewrite IH by lia. f_equal.
    rewrite Nat2Z.inj_succ, Z.pow_succ_r by lia. lia.
Qed.

Lemma schedule_length type retries interval :
  length (schedule type retries interval) = Z.to_nat retries.
Proof.
  destruct type; simpl.
  - unfold createConstantIntervals. rewrite constant_loop_spec. simpl.
    apply length_replicate.
  - unfold createExponentialIntervals. by rewrite exponential_loop_length.
Qed.

Lemma createContext_owns type retries interval (u : U) ctx w :
  createContext type retries interval (init u) = (ctx, w) →
  owns ctx w [0; retries] (schedule type retries interval) ∧ user w = u.
Proof.
  unfold createContext.
  replace (js_or (Some retries) 0) with retries
    by (unfold js_or; destruct (Z.eqb_spec retries 0); congruence).
  replace (match type with
           | CONSTANT => createConstantIntervals
           | EXPONENTIAL => createExponentialIntervals
           end retries interval) with (schedule type retries interval)
    by (by destruct type).
  destruct (alloc [0; retries] (init u)) as [r w1] eqn:Hr.
  destruct (alloc _ w1) as [i w2] eqn:Hi.
  intros [= <- <-].
  apply alloc_spec in Hr as (Hfr & Hh1 & Hd1 & Hu1).
  apply alloc_spec in Hi as (Hfi & Hh2 & Hd2 & Hu2).
  assert (i ≠ r).
  { intros ->. rewrite Hh1, lookup_insert_eq in Hfi. done. }
  split; [|simpl in *; congruence].
  unfold owns; simpl. rewrite Hh2, Hh1, Hd2, Hd1. simpl.
  rewrite lookup_insert_eq, lookup_insert_ne, lookup_insert_eq by done.
  repeat split; try done; set_solver.
Qed.

Lemma session_retry fuel type (run : arg (task U)) retries interval f u :
  session fuel type run retries interval f u
  = match retry type run retries interval (init u) with
    | inl e => inl e
    | inr (p, w) =>
      let p' := match f with
                | Some f => (register p (Fn f)).1
                | None => p
                end in
      inr (prepend [EvRun (rt_first p')] (settle fuel p' w))
    end.
Proof. by destruct type. Qed.

Lemma session_attempts fuel type fn retries interval f (u : U) :
  let max := js_or retries DEFAULT_RETRIES in
  let sched := schedule type max (js_or interval DEFAULT_INTERVAL) in
  (Z.to_nat max < fuel)%nat →
  ∃ tr out w,
    session fuel type (Fn fn) retries interval f u = inr (Some (tr, out, w))
    ∧ attempts fn (default noop f) max sched tr out.
Proof.
  intros max sched Hfuel. rewrite session_retry. unfold retry.
  fold max. fold (js_or interval DEFAULT_INTERVAL).
  destruct (createContext type max _ (init u)) as [ctx w1] eqn:Hctx.
  apply createContext_owns in Hctx as [Ho Hu]. fold sched in Ho.
  destruct (owns_invoke fn _ _ _ _ Ho) as (w2 & -> & Ho2 & _).
  rewrite Hu. set (r := (fn u).1).
  assert (Hr : does fn r) by (eexists; reflexivity).
  set (p := {| rt_run := fn; rt_ctx := ctx; rt_first := r;
               rt_notifier := Helpers.createNotifier noop |}).
  set (p' := match f with Some f0 => (register p (Fn f0)).1 | None => p end).
  assert (Hp' : rt_run p' = fn ∧ rt_ctx p' = ctx ∧ rt_first p' = r
                ∧ Helpers.notify (rt_notifier p') = default noop f)
    by (subst p'; destruct f; done).
  destruct Hp' as (Hp1 & Hp2 & Hp3 & Hp4).
  unfold settle. rewrite Hp1, Hp2, Hp3, Hp4.
  destruct (promise_of_call r) as [t [v|e]|] eqn:Hp.
  - eexists _, _, _. split; [reflexivity|]. by eapply first_fulfils.
  - destruct (handle_rounds fn (default noop f) ctx fuel sched 0 max e w2)
      as (tr & out & w' & -> & Hrounds); try done.
    { subst sched. rewrite schedule_length. lia. }
    { subst sched. by rewrite schedule_length. }
    eexists _, _, _. split; [reflexivity|].
    apply first_fails with (e := e); try done.
    unfold failure_of. by rewrite Hp.
  - eexists _, _, _. split; [reflexivity|]. by apply first_hangs.
Qed.

Lemma session_first_call fuel type fn retries interval f (u : U) :
  let max := js_or retries DEFAULT_RETRIES in
  let sched := schedule type max (js_or interval DEFAULT_INTERVAL) in
  (Z.to_nat max < fuel)%nat →
  ∃ tr out w,
    session fuel type (Fn fn) retries interval f u
    = inr (Some (EvRun (fn u).1 :: tr, out, w))
    ∧ match failure_of (fn u).1 with
      | Some e => rounds fn (default noop f) max 0 sched e tr out
      | None => tr = []
      end.
Proof.
  intros max sched Hfuel. rewrite session_retry. unfold retry.
  fold max. fold (js_or interval DEFAULT_INTERVAL).
  destruct (createContext type max _ (init u)) as [ctx w1] eqn:Hctx.
  apply createContext_owns in Hctx as [Ho Hu]. fold sched in Ho.
  destruct (owns_invoke fn _ _ _ _ Ho) as (w2 & -> & Ho2 & _).
  rewrite Hu. set (r := (fn u).1).
  set (p := {| rt_run := fn; rt_ctx := ctx; rt_first := r;
               rt_notifier := Helpers.createNotifier noop |}).
  set (p' := match f with Some f0 => (register p (Fn f0)).1 | None => p end).
  assert (Hp' : rt_run p' = fn ∧ rt_ctx p' = ctx ∧ rt_first p' = r
                ∧ Helpers.notify (rt_notifier p') = default noop f)
    by (subst p'; destruct f; done).
  destruct Hp' as (Hp1 & Hp2 & Hp3 & Hp4).
  unfold settle, failure_of. rewrite Hp1, Hp2, Hp3, Hp4.
  destruct (promise_of_call r) as [t [v|e]|] eqn:Hp.
  - by eexists _, _, _.
  - destruct (handle_rounds fn (default noop f) ctx fuel sched 0 max e w2)
      as (tr & out & w' & -> & Hrounds); try done.
    { subst sched. rewrite schedule_length. lia. }
    { subst sched. by rewrite schedule_length. }
    by eexists _, _, _.
  - by eexists _, _, _.
Qed.

Lemma rounds_begin fn notify max done d ivs err tr out :
  rounds fn notify max done (d :: ivs) err tr out →
  ∃ thrown tr',
    tr = EvTimerStart (Some d) :: EvTimerFire (Some d)
           :: EvNotify [done + 1; max] (d :: ivs) err thrown :: tr'.
Proof. inversion 1; subst; by eexists _, _. Qed.

Lemma split_cons {A} (x a : A) pre post l :
  a :: l = pre ++ x :: post →
  (pre = [] ∧ a = x ∧ l = post) ∨ ∃ pre', pre = a :: pre' ∧ l = pre' ++ x :: post.
Proof. destruct pre as [|b pre]; intros [= -> ->]; eauto. Qed.

Lemma rounds_snapshots fn notify max done ivs err tr out :
  rounds fn notify max done ivs err tr out →
  ∀ (k : nat) sched, Z.of_nat k = done → drop k sched = ivs →
  snapshots tr = shown max sched <$> seq k (length (snapshots tr))
  ∧ timers tr = Some <$> take (length (snapshots tr)) ivs.
Proof.
  assert (Hdrop : ∀ k sched d (ivs : list Z),
             drop k sched = d :: ivs → drop (S k) sched = ivs).
  { intros k sched d l H. replace (S k) with (k + 1)%nat by lia.
    by rewrite <- drop_drop, H. }
  induction 1 as [done err|done d ivs err e tr out Hre Hrs IH
                 |done d ivs err r e tr out Hre Hr Hf Hrs IH
                 |done d ivs err r t v Hre Hr Hp|done d ivs err r Hre Hr Hp];
    intros k sched Hk Hd; simpl.
  - done.
  - destruct (IH (S k) sched) as [IH1 IH2]; [lia|by eapply Hdrop|].
    split; f_equal; [|exact IH1|exact IH2].
    unfold shown. by rewrite Hd, <- Hk.
  - destruct (IH (S k) sched) as [IH1 IH2]; [lia|by eapply Hdrop|].
    split; f_equal; [|exact IH1|exact IH2].
    unfold shown. by rewrite Hd, <- Hk.
  - unfold shown. by rewrite Hd, <- Hk.
  - unfold shown. by rewrite Hd, <- Hk.
Qed.

Lemma rounds_all_retries fn notify max done ivs err tr out :
  always_fails fn →
  rounds fn notify max done ivs err tr out →
  length (snapshots tr) = length ivs.
Proof.
  intros Hfail.
  assert (Hno : ∀ r, does fn r → failure_of r = None → False).
  { intros r [u <-] H. destruct (Hfail u) as [e He]. congruence. }
  induction 1 as [done err|done d ivs err e tr out Hre Hrs IH
                 |done d ivs err r e tr out Hre Hr Hf Hrs IH
                 |done d ivs err r t v Hre Hr Hp|done d ivs err r Hre Hr Hp];
    simpl; try congruence.
  - exfalso. apply (Hno r Hr). unfold failure_of. by rewrite Hp.
  - exfalso. apply (Hno r Hr). unfold failure_of. by rewrite Hp.
Qed.

Lemma rounds_counts fn notify max done ivs err tr out :
  never_throws notify →
  rounds fn notify max done ivs err tr out →
  count is_run tr = count is_notify tr
  ∧ (count is_notify tr ≤ length ivs)%nat
  ∧ (tr = [] ∨ ∃ r, last tr = Some (EvRun r)).
Proof.
  intros Hnt.
  assert (Hno : ∀ e, reacts notify (Some e) → False).
  { intros e (c & rs & l & e' & u & H). rewrite Hnt in H. done. }
  induction 1 as [done err|done d ivs err e tr out Hre Hrs IH
                 |done d ivs err r e tr out Hre Hr Hf Hrs IH
                 |done d ivs err r t v Hre Hr Hp|done d ivs err r Hre Hr Hp];
    simpl.
  - split; [done|]. split; [lia|]. by left.
  - destruct (Hno e Hre).
  - destruct IH as (IH1 & IH2 & IH3). split; [lia|]. split; [lia|].
    right. destruct IH3 as [->|[r' Hr']]; [by exists r|].
    exists r'. destruct tr; [done|]. done.
  - split; [done|]. split; [lia|]. right. by exists r.
  - split; [done|]. split; [lia|]. right. by exists r.
Qed.

Lemma rounds_calls fn notify max done ivs err tr out :
  rounds fn notify max done ivs err tr out → Forall (does fn) (calls tr).
Proof.
  induction 1; simpl; repeat constructor; done.
Qed.

Lemma rounds_rejects_last fn notify max done ivs err tr out :
  never_throws notify → always_fails fn →
  rounds fn notify max done ivs err tr out →
  out = Rejected (default err (last (calls tr) ≫= failure_of)).
Proof.
  intros Hnt Hfail.
  assert (Hno : ∀ e, reacts notify (Some e) → False).
  { intros e (c & rs & l & e' & u & H). rewrite Hnt in H. done. }
  assert (Hno' : ∀ r, does fn r → failure_of r = None → False).
  { intros r [u <-] H. destruct (Hfail u) as [e He]. congruence. }
  induction 1 as [done err|done d ivs err e tr out Hre Hrs IH
                 |done d ivs err r e tr out Hre Hr Hf Hrs IH
                 |done d ivs err r t v Hre Hr Hp|done d ivs err r Hre Hr Hp];
    simpl.
  - done.
  - destruct (Hno e Hre).
  - rewrite IH. f_equal.
    pose proof (rounds_calls _ _ _ _ _ _ _ _ Hrs) as Hall.
    destruct (calls tr) as [|r' l] eqn:Hc; simpl; [by rewrite Hf|].
    assert (Hlast : ∃ r'', last (r' :: l) = Some r'' ∧ does fn r'').
    { destruct (last (r' :: l)) as [r''|] eqn:Hl.
      - exists r''. split; [done|].
        eapply Forall_forall; [exact Hall|]. by apply last_Some_elem_of.
      - by apply last_None in Hl. }
    destruct Hlast as (r'' & Hl & Hd''). rewrite Hl. simpl.
    destruct (failure_of r'') eqn:Hf''; [done|]. destruct (Hno' _ Hd'' Hf'').
  - exfalso. apply (Hno' r Hr). unfold failure_of. by rewrite Hp.
  - exfalso. apply (Hno' r Hr). unfold failure_of. by rewrite Hp.
Qed.

Lemma rounds_order fn notify max done ivs err tr out :
  rounds fn notify max done ivs err tr out →
  (∀ pre rs l e' th post,
     tr = pre ++ EvNotify rs l e' th :: post →
     ∃ pre' d rest,
       pre = pre' ++ [EvTimerStart (Some d); EvTimerFire (Some d)]
       ∧ l = d :: rest
       ∧ match last pre' with
         | None => e' = err
         | Some ev => cause ev = Some e'
         end)
  ∧ (∀ pre r post, tr = pre ++ EvRun r :: post →
     ∃ pre' rs l e, pre = pre' ++ [EvNotify rs l e None]).
Proof.
  assert (Hlast : ∀ (ev : event) p (e e' : value),
             cause ev = Some e →
             match last p with
             | None => e' = e
             | Some ev' => cause ev' = Some e'
             end →
             ∀ front, match last (front ++ ev :: p) with
                      | None => False
                      | Some ev' => cause ev' = Some e'
                      end).
  { intros ev p e e' Hev Hp front.
    replace (front ++ ev :: p) with ((front ++ [ev]) ++ p)
      by by rewrite <- app_assoc.
    destruct p as [|x p _] using rev_ind.
    - rewrite app_nil_r, last_snoc. simpl in Hp. by subst e'.
    - rewrite app_assoc, last_snoc. by rewrite last_snoc in Hp. }
  induction 1 as [done err|done d ivs err e tr out Hre Hrs [IH1 IH2]
                 |done d ivs err r e tr out Hre Hr Hf Hrs [IH1 IH2]
                 |done d ivs err r t v Hre Hr Hp|done d ivs err r Hre Hr Hp].
  - split.
    + intros pre ????? H. by destruct pre.
    + intros pre ?? H. by destruct pre.
  - split.
    + intros pre rs l e' th post H.
      apply split_cons in H as [(-> & [=] & _)|(p1 & -> & H)].
      apply split_cons in H as [(-> & [=] & _)|(p2 & -> & H)].
      apply split_cons in H as [(-> & [= <- <- <- <-] & _)|(p3 & -> & H)].
      * by exists [], d, ivs.
      * destruct (IH1 _ _ _ _ _ _ H) as (p' & d' & rest & -> & -> & Hc).
        eexists (_ :: _ :: _ :: p'), d', rest.
        split; [done|]. split; [done|].
        pose proof (Hlast (EvNotify [done + 1; max] (d :: ivs) err (Some e))
                      p' e e' eq_refl Hc
                      [EvTimerStart (Some d); EvTimerFire (Some d)]) as Hl.
        revert Hl. cbn [app]. by destruct (last (_ :: _ :: _ :: p')).
    + intros pre r post H.
      apply split_cons in H as [(-> & [=] & _)|(p1 & -> & H)].
      apply split_cons in H as [(-> & [=] & _)|(p2 & -> & H)].
      apply split_cons in H as [(-> & [=] & _)|(p3 & -> & H)].
      destruct (IH2 _ _ _ H) as (p' & rs & l & e' & ->).
      by eexists (_ :: _ :: _ :: p'), rs, l, e'.
  - split.
    + intros pre rs l e' th post H.
      apply split_cons in H as [(-> & [=] & _)|(p1 & -> & H)].
      apply split_cons in H as [(-> & [=] & _)|(p2 & -> & H)].
      apply split_cons in H as [(-> & [= <- <- <- <-] & _)|(p3 & -> & H)].
      * by exists [], d, ivs.
      * apply split_cons in H as [(-> & [=] & _)|(p4 & -> & H)].
        destruct (IH1 _ _ _ _ _ _ H) as (p' & d' & rest & -> & -> & Hc).
        eexists (_ :: _ :: _ :: _ :: p'), d', rest.
        split; [done|]. split; [done|].
        pose proof (Hlast (EvRun r) p' e e' Hf Hc
                      [EvTimerStart (Some d); EvTimerFire (Some d);
                       EvNotify [done + 1; max] (d :: ivs) err None]) as Hl.
        revert Hl. cbn [app]. by destruct (last (_ :: _ :: _ :: _ :: p')).
    + intros pre r' post H.
      apply split_cons in H as [(-> & [=] & _)|(p1 & -> & H)].
      apply split_cons in H as [(-> & [=] & _)|(p2 & -> & H)].
      apply split_cons in H as [(-> & [=] & _)|(p3 & -> & H)].
      apply split_cons in H as [(-> & [= <-] & _)|(p4 & -> & H)].
      * by eexists [_; _], _, _, _.
      * destruct (IH2 _ _ _ H) as (p' & rs & l & e' & ->).
        by eexists (_ :: _ :: _ :: _ :: p'), rs, l, e'.
  - split.
    + intros pre rs l e' th post H.
      apply split_cons in H as [(-> & [=] & _)|(p1 & -> & H)].
      apply split_cons in H as [(-> & [=] & _)|(p2 & -> & H)].
      apply split_cons in H as [(-> & [= <- <- <- <-] & _)|(p3 & -> & H)].
      * by exists [], d, ivs.
      * apply split_cons in H as [(-> & [=] & _)|(p4 & -> & H)].
        by destruct p4.
    + intros pre r' post H.
      apply split_cons in H as [(-> & [=] & _)|(p1 & -> & H)].
      apply split_cons in H as [(-> & [=] & _)|(p2 & -> & H)].
      apply split_cons in H as [(-> & [=] & _)|(p3 & -> & H)].
      apply split_cons in H as [(-> & [= <-] & _)|(p4 & -> & H)].
      * by eexists [_; _], _, _, _.
      * by destruct p4.
  - split.
    + intros pre rs l e' th post H.
      apply split_cons in H as [(-> & [=] & _)|(p1 & -> & H)].
      apply split_cons in H as [(-> & [=] & _)|(p2 & -> & H)].
      apply split_cons in H as [(-> & [= <- <- <- <-] & _)|(p3 & -> & H)].
      * by exists [], d, ivs.
      * apply split_cons in H as [(-> & [=] & _)|(p4 & -> & H)].
        by destruct p4.
    + intros pre r' post H.
      apply split_cons in H as [(-> & [=] & _)|(p1 & -> & H)].
      apply split_cons in H as [(-> & [=] & _)|(p2 & -> & H)].
      apply split_cons in H as [(-> & [=] & _)|(p3 & -> & H)].
      apply split_cons in H as [(-> & [= <-] & _)|(p4 & -> & H)].
      * by eexists [_; _], _, _, _.
      * by destruct p4.
Qed.

Lemma agree_write l a w1 w2 :
  agree w1 w2 → agree (write l a w1) (write l a w2).
Proof.
  intros (Hu & Hh & Hd & Hp). unfold agree, write; simpl.
  rewrite !dom_insert_L, Hd. repeat split; try done.
  intros l' Hl'. destruct (decide (l = l')) as [->|].
  - by rewrite !lookup_insert_eq.
  - rewrite !lookup_insert_ne by done. by apply Hp.
Qed.

Lemma agree_alloc a w1 w2 :
  agree w1 w2 → (alloc a w2).1 = (alloc a w1).1
                ∧ agree (alloc a w1).2 (alloc a w2).2.
Proof.
  intros Hag. pose proof Hag as (Hu & Hh & Hd & Hp).
  unfold alloc; simpl. rewrite Hd. split; [done|]. by apply agree_write.
Qed.





Lemma attempts_order fn notify max sched tr out :
  attempts fn notify max sched tr out →
  notified_after_delay tr ∧ rerun_after_notified tr.
Proof.
  destruct 1 as [r t v Hr Hp|r Hr Hp|r e tr out Hr Hf Hrs].
  - split.
    + intros pre ????? H. destruct pre as [|? [|]]; done.
    + intros pre ?? H. destruct pre as [|? [|]]; [by left|done..].
  - split.
    + intros pre ????? H. destruct pre as [|? [|]]; done.
    + intros pre ?? H. destruct pre as [|? [|]]; [by left|done..].
  - destruct (rounds_order _ _ _ _ _ _ _ _ Hrs) as [H1 H2]. split.
    + intros pre rs l e' th post H.
      apply split_cons in H as [(-> & [=] & _)|(p1 & -> & H)].
      destruct (H1 _ _ _ _ _ _ H) as (p' & d & rest & -> & -> & Hc).
      destruct p' as [|x p' _] using rev_ind.
      * simpl in Hc. subst e'. by exists [EvRun r], d, rest, (EvRun r).
      * rewrite last_snoc in Hc.
        exists (EvRun r :: p' ++ [x]), d, rest, x.
        split; [done|]. split; [done|]. split; [|done].
        by rewrite app_comm_cons, last_snoc.
    + intros pre r' post H.
      apply split_cons in H as [(-> & _)|(p1 & -> & H)]; [by left|].
      right. destruct (H2 _ _ _ H) as (p' & rs & l & e' & ->).
      by exists (EvRun r :: p'), rs, l, e'.
Qed.

Lemma attempts_snapshots fn notify max sched tr out :
  attempts fn notify max sched tr out →
  snapshots tr = shown max sched <$> seq 0 (length (snapshots tr))
  ∧ timers tr = Some <$> take (length (snapshots tr)) sched
  ∧ (always_fails fn → length (snapshots tr) = length sched).
Proof.
  destruct 1 as [r t v Hr Hp|r Hr Hp|r e tr out Hr Hf Hrs]; simpl.
  - repeat split; try done. intros Hfail. destruct Hr as [u0 <-].
    destruct (Hfail u0) as [e He]. unfold failure_of in He.
    rewrite Hp in He. done.
  - repeat split; try done. intros Hfail. destruct Hr as [u0 <-].
    destruct (Hfail u0) as [e He]. unfold failure_of in He.
    rewrite Hp in He. done.
  - destruct (rounds_snapshots _ _ _ _ _ _ _ _ Hrs 0%nat sched) as [H1 H2];
      try done.
    repeat split; try done. intros Hfail. by eapply rounds_all_retries.
Qed.

Lemma attempts_counts fn notify max sched tr out :
  never_throws notify →
  attempts fn notify max sched tr out →
  count is_run tr = S (count is_notify tr)
  ∧ (count is_run tr ≤ 1 + length sched)%nat
  ∧ (∃ r tr', tr = EvRun r :: tr')
  ∧ (∃ r, last tr = Some (EvRun r)).
Proof.
  intros Hnt.
  destruct 1 as [r t v Hr Hp|r Hr Hp|r e tr out Hr Hf Hrs]; simpl.
  - repeat split; try done; try lia; by eexists; eauto.
  - repeat split; try done; try lia; by eexists; eauto.
  - destruct (rounds_counts _ _ _ _ _ _ _ _ Hnt Hrs) as (H1 & H2 & H3).
    split; [lia|]. split; [lia|]. split; [by eauto|].
    destruct H3 as [->|[r' Hr']]; [by exists r|].
    exists r'. by destruct tr.
Qed.

Lemma attempts_rejects_last fn notify max sched tr out :
  never_throws notify → always_fails fn →
  attempts fn notify max sched tr out →
  ∃ r e, last (calls tr) = Some r ∧ failure_of r = Some e
         ∧ out = Rejected e.
Proof.
  intros Hnt Hfail.
  assert (Hno : ∀ r, does fn r → failure_of r = None → False).
  { intros r [u <-] H. destruct (Hfail u) as [e He]. congruence. }
  destruct 1 as [r t v Hr Hp|r Hr Hp|r e tr out Hr Hf Hrs]; simpl.
  - exfalso. apply (Hno r Hr). unfold failure_of. by rewrite Hp.
  - exfalso. apply (Hno r Hr). unfold failure_of. by rewrite Hp.
  - rewrite (rounds_rejects_last _ _ _ _ _ _ _ _ Hnt Hfail Hrs).
    pose proof (rounds_calls _ _ _ _ _ _ _ _ Hrs) as Hall.
    destruct (calls tr) as [|r' l] eqn:Hc; simpl; [by exists r, e|].
    destruct (last (r' :: l)) as [r''|] eqn:Hl;
      [|by apply last_None in Hl].
    assert (Hd : does fn r'').
    { eapply Forall_forall; [exact Hall|]. by apply last_Some_elem_of. }
    destruct (failure_of r'') as [e''|] eqn:Hf''; [|destruct (Hno _ Hd Hf'')].
    exists r'', e''. split; [done|]. split; [done|]. simpl. by rewrite Hf''.
Qed.



Lemma promise_of_rejection (r : call_result) :
  promise_of_call (rejection_of r) = promise_of_call r.
Proof. by destruct r. Qed.

Lemma invoke_rejecting fn w :
  invoke (rejecting fn) w
  = (rejection_of (invoke fn w).1, (invoke fn w).2).
Proof. unfold invoke, rejecting. by destruct (fn (user w)). Qed.

Lemma handle_rejecting fn notify ctx fuel : ∀ err w,
  handle fuel (rejecting fn) notify ctx err w
  = as_promises <$> handle fuel fn notify ctx err w.
Proof.
  induction fuel as [|fuel IH]; intros err w; [done|].
  cbn [handle].
  destruct (read (ctx_retries ctx) w) as [|done [|max rest]];
    [reflexivity..|].
  destruct (done <? max); [|reflexivity].
  destruct (cloneContext ctx _) as [clone w2].
  destruct (shift _ w2) as [d w3].
  destruct (call_observer notify clone err w3) as [[ev thrown] w4] eqn:Hev.
  assert (Hn : as_promise ev = ev).
  { unfold call_observer in Hev. by injection Hev as <- _ _. }
  destruct thrown as [e|].
  - rewrite IH. destruct (handle fuel fn notify ctx e w4) as [[[tr out] w']|];
      [|done].
    unfold as_promises; simpl. by rewrite Hn.
  - rewrite invoke_rejecting. destruct (invoke fn w4) as [r w5].
    cbn [fst snd]. rewrite promise_of_rejection.
    destruct (promise_of_call r) as [t [v|e]|] eqn:Hp.
    + unfold as_promises; simpl. by rewrite Hn.
    + rewrite IH.
      destruct (handle fuel fn notify ctx e w5) as [[[tr out] w']|]; [|done].
      unfold as_promises; simpl. by rewrite Hn.
    + unfold as_promises; simpl. by rewrite Hn.
Qed.
End ShapeFacts.

(** ** The schedules over binary64 numbers *)

Lemma binary64_constant_loop_spec n x res :
  Binary64.constant_loop n x res = res ++ replicate n x.
Proof.
  revert res. induction n as [|n IH]; intros res; simpl.
  - by rewrite app_nil_r.
  - by rewrite IH, <- app_assoc.
Qed.

Lemma binary64_exponential_loop_length n next res :
  length (Binary64.exponential_loop n next res) = (length res + n)%nat.
Proof.
  revert next res. induction n as [|n IH]; intros next res; simpl; [lia|].
  rewrite IH, length_app. simpl. lia.
Qed.

Lemma binary64_exponential_loop_lookup_old n next res k :
  (k < length res)%nat →
  Binary64.exponential_loop n next res !! k = res !! k.
Proof.
  revert next res. induction n as [|n IH]; intros next res Hk; simpl; [done|].
  rewrite IH by (rewrite length_app; simpl; lia). by rewrite lookup_app_l.
Qed.

Lemma binary64_exponential_loop_lookup_new n next res k :
  (k < n)%nat →
  Binary64.exponential_loop n next res !! (length res + k)%nat
  = Some (Nat.iter k Binary64.double next).
Proof.
  revert next res k. induction n as [|n IH]; intros next res k Hk; [lia|].
  simpl. destruct k as [|k].
  - rewrite binary64_exponential_loop_lookup_old
      by (rewrite length_app; simpl; lia).
    by rewrite Nat.add_0_r, lookup_app_r, Nat.sub_diag by lia.
  - replace (length res + S k)%nat with (length (res ++ [next]) + k)%nat
      by (rewrite length_app; simpl; lia).
    rewrite IH by lia. by rewrite Nat.iter_succ_r.
Qed.

Lemma overflow_pos : 0 < Binary64.overflow.
Proof. done. Qed.

Lemma held_below_overflow z : Binary64.held z → Z.abs z < Binary64.overflow.
Proof. by intros (m & e & _ & _ & _ & H). Qed.

(** Doubling keeps a number among those binary64 holds, short of
    overflow. *)
Lemma held_double z :
  Binary64.held z → Z.abs (2 * z) < Binary64.overflow →
  Binary64.held (2 * z).
Proof.
  intros (m & e & -> & Hm & He & _) Hlt. exists m, (e + 1).
  rewrite Z.pow_add_r by lia. repeat split; try done; lia.
Qed.

Lemma double_scaled i k :
  0 ≤ k →
  Binary64.double (Binary64.scaled i k) = Binary64.scaled i (k + 1).
Proof.
  intros Hk. pose proof overflow_pos as Hov. unfold Binary64.scaled.
  rewrite Z.pow_add_r by lia. change (2 ^ 1) with 2.
  assert (Hp : 0 < 2 ^ k) by (apply Z.pow_pos_nonneg; lia).
  set (P := 2 ^ k) in *. set (ov := Binary64.overflow) in *.
  assert (Ha : Z.abs i * P = Z.abs (i * P))
    by (rewrite Z.abs_mul, (Z.abs_eq P); lia).
  assert (Ha2 : Z.abs i * (P * 2) = 2 * Z.abs (i * P)) by lia.
  assert (Hb2 : i * (P * 2) = 2 * (i * P)) by lia.
  assert (Hs : (0 <? i) = (0 <? i * P)).
  { destruct (Z.ltb_spec 0 i), (Z.ltb_spec 0 (i * P)); try done; nia. }
  rewrite Ha, Ha2, Hb2, Hs. set (b := i * P). clearbody b. clear Ha Ha2 Hb2 Hs.
  destruct (Z.ltb_spec (Z.abs b) ov) as [H1|H1].
  - cbn [Binary64.double]. fold ov.
    destruct (Z.leb_spec ov (2 * b)) as [H2|H2].
    + destruct (Z.ltb_spec (2 * Z.abs b) ov); [lia|].
      by destruct (Z.ltb_spec 0 b); [|lia].
    + destruct (Z.leb_spec (2 * b) (- ov)) as [H3|H3].
      * destruct (Z.ltb_spec (2 * Z.abs b) ov); [lia|].
        by destruct (Z.ltb_spec 0 b); [lia|].
      * by destruct (Z.ltb_spec (2 * Z.abs b) ov); [|lia].
  - destruct (Z.ltb_spec (2 * Z.abs b) ov); [lia|].
    by destruct (0 <? b).
Qed.

Lemma iter_double_scaled i k :
  Z.abs i < Binary64.overflow →
  Nat.iter k Binary64.double (Binary64.Num i)
  = Binary64.scaled i (Z.of_nat k).
Proof.
  intros Hi. induction k as [|k IH].
  - simpl. unfold Binary64.scaled. rewrite Z.pow_0_r, !Z.mul_1_r.
    by destruct (Z.ltb_spec (Z.abs i) Binary64.overflow); [|lia].
  - rewrite Nat.iter_succ, IH, double_scaled by lia.
    f_equal. lia.
Qed.

(** Below overflow the loop over binary64 numbers is the loop over the
    integers. *)
Lemma exponential_loop_exact n next res :
  (n = 0%nat ∨ Z.abs next * 2 ^ (Z.of_nat n - 1) < Binary64.overflow) →
  Binary64.exponential_loop n (Binary64.Num next) (Binary64.Num <$> res)
  = Binary64.Num <$> Retry.exponential_loop n next res.
Proof.
  revert next res. induction n as [|n IH]; intros next res Hn; [done|].
  destruct Hn as [|Hn]; [done|]. cbn [Binary64.exponential_loop
    Retry.exponential_loop].
  replace ((Binary64.Num <$> res) ++ [Binary64.Num next])
    with (Binary64.Num <$> (res ++ [next])) by by rewrite fmap_app.
  destruct n as [|n]; [done|].
  replace (Z.of_nat (S (S n)) - 1) with (Z.of_nat (S n) - 1 + 1) in Hn by lia.
  rewrite Z.pow_add_r in Hn by lia. change (2 ^ 1) with 2 in Hn.
  assert (Hp : 0 < 2 ^ (Z.of_nat (S n) - 1)) by (apply Z.pow_pos_nonneg; lia).
  set (P := 2 ^ (Z.of_nat (S n) - 1)) in *.
  pose proof overflow_pos as Hov. set (ov := Binary64.overflow) in *.
  assert (Hd : Binary64.double (Binary64.Num next) = Binary64.Num (next * 2)).
  { cbn [Binary64.double]. fold ov.
    destruct (Z.leb_spec ov (2 * next)); [nia|].
    destruct (Z.leb_spec (2 * next) (- ov)); [nia|]. f_equal. lia. }
  rewrite Hd. apply IH. right. fold P. fold ov.
  rewrite Z.abs_mul. change (Z.abs 2) with 2. lia.
Qed.

Lemma schedule_exact_below_overflow (r i : Z) :
  Z.abs i * 2 ^ (r - 1) < Binary64.overflow →
  Binary64.createConstantIntervals r (Binary64.Num i)
  = Binary64.Num <$> Retry.createConstantIntervals r i
  ∧ Binary64.createExponentialIntervals r (Binary64.Num i)
    = Binary64.Num <$> Retry.createExponentialIntervals r i.
Proof.
  intros Hlt. split.
  - unfold Binary64.createConstantIntervals, Retry.createConstantIntervals.
    rewrite binary64_constant_loop_spec, constant_loop_spec. simpl.
    by rewrite fmap_replicate.
  - unfold Binary64.createExponentialIntervals,
      Retry.createExponentialIntervals.
    apply (exponential_loop_exact (Z.to_nat r) i []).
    destruct (Z.to_nat r) as [|n] eqn:Hn; [by left|right].
    by replace (Z.of_nat (S n)) with r by lia.
Qed.

(** ** Racing a promise against a timer *)

Lemma timeout_task_first tie t s ms :
  0 < ms → t < ms → Index.timeout tie (Settles t s) (Some ms) = Settles t s.
Proof.
  intros Hms Hlt. unfold Index.timeout, Index.delay, Index.then_reject, Index.race.
  cbn [from_option id]. rewrite Z.max_r by lia.
  by destruct (Z.ltb_spec t ms); [|lia].
Qed.

Lemma timeout_timer_first tie p ms :
  0 < ms → timer_first p ms →
  Index.timeout tie p (Some ms) = Settles ms (Reject Index.TimeoutError).
Proof.
  intros Hms Hp. unfold Index.timeout, Index.delay, Index.then_reject, Index.race.
  cbn [from_option id]. rewrite Z.max_r by lia.
  destruct p as [t s|]; [|done]. simpl in Hp.
  destruct (Z.ltb_spec t ms); [lia|]. by destruct (Z.ltb_spec ms t); [|lia].
Qed.

Section DeadlineFacts.
Import Deadline.
Context {U : Type}.

Lemma session_handle tie (run : task U) f u ms :
  0 < ms →
  session tie (Fn run) (Some ms) f u
  = inr (handle tie (promise_of_call (run u).1) ms (default noop f) (run u).2).
Proof.
  intros Hms. unfold session, deadline.
  destruct (run u) as [r u1]. cbn [fst snd].
  assert (Htruthy : truthy (Some ms) = true).
  { simpl. destruct (Z.eqb_spec ms 0); [lia|done]. }
  destruct f; unfold settle; simpl dl_ms; rewrite Htruthy; done.
Qed.
End DeadlineFacts.

(** * The claims *)

(** ** Schedules and the notifier *)

(** C7, as the code has it.  For retries [r ≥ 1] and an interval [i],
    an integer that binary64 holds, the constant schedule has length [r]
    and every element is [i]; the exponential schedule has length [r] and
    its element [k] (from 0) is [i × 2^k] as long as that is below
    [2^1024] in magnitude, and from there on the infinity of the sign of
    [i]. *)
Theorem schedules_constant_and_exponential (r i : Z) :
  1 ≤ r →
  Binary64.held i →
  Z.of_nat (length (Binary64.createConstantIntervals r (Binary64.Num i))) = r
  ∧ (∀ k, 0 ≤ k < r →
       Binary64.createConstantIntervals r (Binary64.Num i) !! Z.to_nat k
       = Some (Binary64.Num i))
  ∧ Z.of_nat (length (Binary64.createExponentialIntervals r (Binary64.Num i)))
    = r
  ∧ (∀ k, 0 ≤ k < r →
       Binary64.createExponentialIntervals r (Binary64.Num i) !! Z.to_nat k
       = Some (if Z.abs i * 2 ^ k <? 2 ^ 1024 then Binary64.Num (i * 2 ^ k)
               else if 0 <? i then Binary64.PosInf else Binary64.NegInf)).
Proof.
  intros Hr Hi. apply held_below_overflow in Hi.
  unfold Binary64.createConstantIntervals, Binary64.createExponentialIntervals.
  rewrite binary64_constant_loop_spec, binary64_exponential_loop_length.
  simpl.
  split; [rewrite length_replicate; lia|].
  split; [intros k Hk; apply lookup_replicate_2; lia|].
  split; [lia|].
  intros k Hk.
  rewrite (binary64_exponential_loop_lookup_new _ _ [] (Z.to_nat k)) by lia.
  rewrite iter_double_scaled, Z2Nat.id by lia. reflexivity.
Qed.

Lemma schedules_constant_and_exponential_witness :
  (1 ≤ 3 ∧ Binary64.held 100)
  ∧ (Z.of_nat (length (Binary64.createConstantIntervals 3 (Binary64.Num 100)))
     = 3
     ∧ (∀ k, 0 ≤ k < 3 →
          Binary64.createConstantIntervals 3 (Binary64.Num 100) !! Z.to_nat k
          = Some (Binary64.Num 100))
     ∧ Z.of_nat
         (length (Binary64.createExponentialIntervals 3 (Binary64.Num 100)))
       = 3
     ∧ (∀ k, 0 ≤ k < 3 →
          Binary64.createExponentialIntervals 3 (Binary64.Num 100)
            !! Z.to_nat k
          = Some (if Z.abs 100 * 2 ^ k <? 2 ^ 1024
                  then Binary64.Num (100 * 2 ^ k)
                  else if 0 <? 100 then Binary64.PosInf
                       else Binary64.NegInf))).
Proof.
  assert (H1 : 1 ≤ 3) by lia.
  assert (H2 : Binary64.held 100) by (by exists 100, 0).
  split; [done|].
  apply (schedules_constant_and_exponential 3 100 H1 H2).
Defined.

(** C7, as stated, fails: with 1030 retries and an interval of 1 the
    element 1024 of the exponential schedule is [Infinity], not
    [2^1024]. *)
Lemma exponential_schedule_overflows :
  1 ≤ 1030
  ∧ Binary64.held 1
  ∧ 0 ≤ 1024 < 1030
  ∧ Binary64.createExponentialIntervals 1030 (Binary64.Num 1)
      !! Z.to_nat 1024
    = Some Binary64.PosInf
  ∧ Binary64.PosInf ≠ Binary64.Num (1 * 2 ^ 1024).
Proof.
  split; [lia|]. split; [by exists 1, 0|]. split; [lia|].
  split; [by vm_compute|done].
Qed.

(** C8. Registering an observer that is not a function throws at once and
    leaves the slot, and with it the whole state of the promise returned
    by the retry engine or by the deadline wrapper, as it was; registering
    a function stores it and returns the promise it was called on. *)
Theorem notifier_registration :
  (∀ (F P : Type) (this : P) (n : Helpers.notifier F) (v : value),
     Helpers.set this (NotFn v) n
     = (n, inl (Error "Expected `notify` to be a function.")))
  ∧ (∀ (F P : Type) (this : P) (n : Helpers.notifier F) (f : F),
       ∃ n', Helpers.set this (Fn f) n = (n', inr this)
             ∧ Helpers.notify n' = f)
  ∧ (∀ (U : Type) (p : Retry.retrying U) (v : value),
       Retry.register p (NotFn v)
       = (p, inl (Error "Expected `notify` to be a function.")))
  ∧ (∀ (U : Type) (p : Retry.retrying U) (f : Retry.observer U),
       ∃ p', Retry.register p (Fn f) = (p', inr p')
             ∧ Helpers.notify (Retry.rt_notifier p') = f
             ∧ Retry.rt_run p' = Retry.rt_run p
             ∧ Retry.rt_ctx p' = Retry.rt_ctx p
             ∧ Retry.rt_first p' = Retry.rt_first p)
  ∧ (∀ (U : Type) (p : Deadline.deadlined U) (v : value),
       Deadline.register p (NotFn v)
       = (p, inl (Error "Expected `notify` to be a function.")))
  ∧ (∀ (U : Type) (p : Deadline.deadlined U) (f : Deadline.observer U),
       ∃ p', Deadline.register p (Fn f) = (p', inr p')
             ∧ Helpers.notify (Deadline.dl_notifier p') = f
             ∧ Deadline.dl_promise p' = Deadline.dl_promise p
             ∧ Deadline.dl_ms p' = Deadline.dl_ms p).
Proof.
  split; [done|]. split; [by eexists|].
  split; [by intros U [] v|]. split; [by eexists|].
  split; [by intros U [] v|]. by eexists.
Qed.

(** ** The retry engine *)

Section RetryClaims.
Import Retry Trace.
Context {U : Type}.
Implicit Types (fn : task U).

(** C1, as the code has it.  For every retry sequence and every retry
    that is performed, the timer of the back-off delay is set and goes
    off first; only then is the observer called, with the copy of the
    context, whose first interval is that delay, and with the failure
    that led to the retry; and the task is called again right after the
    observer has returned, hence after the delay has elapsed. *)
Theorem delay_then_observer_then_task
    (fuel : nat) (type : backoff) fn (retries interval : option Z)
    (f : option (observer U)) (u : U) :
  (Z.to_nat (js_or retries DEFAULT_RETRIES) < fuel)%nat →
  ∃ tr out w,
    session fuel type (Fn fn) retries interval f u = inr (Some (tr, out, w))
    ∧ notified_after_delay tr ∧ rerun_after_notified tr.
Proof.
  intros Hfuel.
  destruct (session_attempts fuel type fn retries interval f u Hfuel)
    as (tr & out & w & Hs & Hat).
  exists tr, out, w. split; [done|]. by eapply attempts_order.
Qed.


(** C5, as the code has it.  With [retries ≥ 1] and an observer that
    returns normally, the observer is called once per retry performed,
    never for the first attempt (a run starts with a call of the task)
    and never after the last failure (a run ends with a call of the
    task); the task is called once more than the observer, and at most
    [1 + retries] times. *)
Theorem one_notification_per_retry
    (fuel : nat) (type : backoff) fn (retries : Z) (interval : option Z)
    (f : option (observer U)) (u : U) :
  1 ≤ retries →
  never_throws (default noop f) →
  (Z.to_nat retries < fuel)%nat →
  ∃ tr out w,
    session fuel type (Fn fn) (Some retries) interval f u
    = inr (Some (tr, out, w))
    ∧ count is_run tr = S (count is_notify tr)
    ∧ (count is_run tr ≤ 1 + Z.to_nat retries)%nat
    ∧ (∃ r tr', tr = EvRun r :: tr')
    ∧ (∃ r, last tr = Some (EvRun r)).
Proof.
  intros Hr Hnt Hfuel.
  assert (Hmax : js_or (Some retries) DEFAULT_RETRIES = retries).
  { unfold js_or. destruct (Z.eqb_spec retries 0); [lia|done]. }
  destruct (session_attempts fuel type fn (Some retries) interval f u)
    as (tr & out & w & Hs & Hat); [by rewrite Hmax|].
  exists tr, out, w. split; [done|].
  destruct (attempts_counts _ _ _ _ _ _ Hnt Hat) as (H1 & H2 & H3 & H4).
  rewrite schedule_length, Hmax in H2. done.
Qed.

(** C6, as the code has it.  When the task fails at every attempt and the
    observer returns normally, the promise returned by the engine rejects
    with the very failure of the last call of the task. *)
Theorem exhausted_retry_rejects_with_last_failure
    (fuel : nat) (type : backoff) fn (retries interval : option Z)
    (f : option (observer U)) (u : U) :
  always_fails fn →
  never_throws (default noop f) →
  (Z.to_nat (js_or retries DEFAULT_RETRIES) < fuel)%nat →
  ∃ tr out w r e,
    session fuel type (Fn fn) retries interval f u = inr (Some (tr, out, w))
    ∧ last (calls tr) = Some r ∧ failure_of r = Some e
    ∧ out = Rejected e.
Proof.
  intros Hfail Hnt Hfuel.
  destruct (session_attempts fuel type fn retries interval f u Hfuel)
    as (tr & out & w & Hs & Hat).
  destruct (attempts_rejects_last _ _ _ _ _ _ Hnt Hfail Hat)
    as (r & e & H1 & H2 & H3).
  by exists tr, out, w, r, e.
Qed.

End RetryClaims.

Section RetryExamples.
Import Retry Trace Samples.

Lemma delay_then_observer_then_task_witness :
  (Z.to_nat (js_or (Some 1%Z) DEFAULT_RETRIES) < 2)%nat
  ∧ ∃ tr out w,
      session 2 CONSTANT (Fn failing) (Some 1) (Some 1000) None tt
      = inr (Some (tr, out, w))
      ∧ notified_after_delay tr ∧ rerun_after_notified tr.
Proof.
  split; [vm_compute; lia|].
  apply (delay_then_observer_then_task 2 CONSTANT failing (Some 1)
           (Some 1000) None tt).
  vm_compute; lia.
Defined.

(** C1, as stated, fails: with one retry of 1000 ms the timer is set and
    goes off before the observer is called, not after. *)
Lemma observer_not_called_before_delay :
  ∃ tr out w,
    session 2 CONSTANT (Fn failing) (Some 1) (Some 1000) None tt
    = inr (Some (tr, out, w))
    ∧ tr = [EvRun (Return (Settles 0 (Reject boom)));
            EvTimerStart (Some 1000); EvTimerFire (Some 1000);
            EvNotify [1; 1] [1000] boom None;
            EvRun (Return (Settles 0 (Reject boom)))]
    ∧ ¬ notified_before_delay tr.
Proof.
  eexists _, _, _. split; [vm_compute; reflexivity|]. split; [reflexivity|].
  intros H.
  specialize (H [EvRun (Return (Settles 0 (Reject boom)));
                 EvTimerStart (Some 1000); EvTimerFire (Some 1000)]
                [1; 1] [1000] boom None
                [EvRun (Return (Settles 0 (Reject boom)))] eq_refl).
  discriminate H.
Qed.

(** C2.  [retries = 0] is taken for a missing argument and replaced by the
    default of one retry: a task that fails is called twice and the
    observer once, where the claim has one call and no notification. *)
Theorem zero_retries_retries_once :
  (∀ (U : Type) fuel type (run : arg (task U)) interval f (u : U),
     session fuel type run (Some 0) interval f u
     = session fuel type run (Some 1) interval f u)
  ∧ ∃ w,
      session 2 CONSTANT (Fn failing) (Some 0) (Some 1000) None tt
      = inr (Some ([EvRun (Return (Settles 0 (Reject boom)));
                    EvTimerStart (Some 1000); EvTimerFire (Some 1000);
                    EvNotify [1; 1] [1000] boom None;
                    EvRun (Return (Settles 0 (Reject boom)))],
                   Rejected boom, w)).
Proof.
  split; [intros; by rewrite !session_retry|].
  eexists. vm_compute. reflexivity.
Qed.


Lemma one_notification_per_retry_witness :
  (1 ≤ 3 ∧ never_throws (default (noop (U:=unit)) None)
   ∧ (Z.to_nat 3 < 4)%nat)
  ∧ ∃ tr out w,
      session 4 EXPONENTIAL (Fn failing) (Some 3) (Some 1000) None tt
      = inr (Some (tr, out, w))
      ∧ count is_run tr = S (count is_notify tr)
      ∧ (count is_run tr ≤ 1 + Z.to_nat 3)%nat
      ∧ (∃ r tr', tr = EvRun r :: tr')
      ∧ (∃ r, last tr = Some (EvRun r)).
Proof.
  assert (H1 : 1 ≤ 3) by lia.
  assert (H2 : never_throws (default (noop (U:=unit)) None))
    by (intros c rs ivs e u; reflexivity).
  assert (H3 : (Z.to_nat 3 < 4)%nat) by (vm_compute; lia).
  split; [done|].
  apply (one_notification_per_retry 4 EXPONENTIAL failing 3 (Some 1000)
           None tt H1 H2 H3).
Defined.

(** C5, as stated, fails: an observer that throws is called at each of
    the three retries, and the task is not called again at any of them. *)
Lemma throwing_observer_skips_task :
  ∃ tr out w,
    session 4 CONSTANT (Fn failing) (Some 3) (Some 1000) (Some throwing) tt
    = inr (Some (tr, out, w))
    ∧ count is_notify tr = 3%nat
    ∧ count is_run tr = 1%nat
    ∧ count is_run tr ≠ S (count is_notify tr).
Proof.
  eexists _, _, _. split; [vm_compute; reflexivity|]. by vm_compute.
Qed.

Lemma exhausted_retry_rejects_with_last_failure_witness :
  (always_fails failing ∧ never_throws (default (noop (U:=unit)) None)
   ∧ (Z.to_nat (js_or (Some 3%Z) DEFAULT_RETRIES) < 4)%nat)
  ∧ ∃ tr out w r e,
      session 4 CONSTANT (Fn failing) (Some 3) (Some 1000) None tt
      = inr (Some (tr, out, w))
      ∧ last (calls tr) = Some r ∧ failure_of r = Some e
      ∧ out = Rejected e.
Proof.
  assert (H1 : always_fails failing) by (intros u; eexists; reflexivity).
  assert (H2 : never_throws (default (noop (U:=unit)) None))
    by (intros c rs ivs e u; reflexivity).
  assert (H3 : (Z.to_nat (js_or (Some 3%Z) DEFAULT_RETRIES) < 4)%nat)
    by (vm_compute; lia).
  split; [done|].
  apply (exhausted_retry_rejects_with_last_failure 4 CONSTANT failing
           (Some 3) (Some 1000) None tt H1 H2 H3).
Defined.

(** C6, as stated, fails: when the observer throws, the promise rejects
    with what the observer threw, which the task never produced. *)
Lemma throwing_observer_replaces_failure :
  always_fails failing
  ∧ ∃ tr w,
      session 4 CONSTANT (Fn failing) (Some 3) (Some 1000) (Some throwing) tt
      = inr (Some (tr, Rejected (VStr "observer"), w))
      ∧ calls tr = [Return (Settles 0 (Reject boom))]
      ∧ boom ≠ VStr "observer".
Proof.
  split; [intros u; eexists; reflexivity|].
  eexists _, _. split; [vm_compute; reflexivity|]. done.
Qed.

End RetryExamples.

(** ** The deadline wrapper *)

Section DeadlineClaims.
Import Deadline.
Context {U : Type}.

(** C3, as the code has it.  For [ms] from 1 to [2^31 - 1], the delays
    [setTimeout] waits for as they are: a task that settles before the
    timer with a success, or with a failure other than the sentinel
    [TimeoutError], has its outcome forwarded unchanged and the observer
    is not called.  The observer is called, with [ms], when the race
    rejects with the sentinel: when the timer goes off first, and also
    when the task itself fails with the sentinel before that; the
    rejection is forwarded when the observer returns normally.  The
    observer is called at most once. *)
Theorem deadline_notifies_on_sentinel
    (tie : bool) (run : task U) (f : option (observer U)) (u : U) (ms : Z) :
  0 < ms →
  ms < 2 ^ 31 →
  ∃ notified out u',
    session tie (Fn run) (Some ms) f u = inr (notified, out, u')
    ∧ (∀ t s, promise_of_call (run u).1 = Settles t s → t < ms →
         s ≠ Reject Index.TimeoutError →
         notified = [] ∧ out = Settles t s ∧ u' = (run u).2)
    ∧ (∀ t, promise_of_call (run u).1
              = Settles t (Reject Index.TimeoutError) →
         t < ms →
         notified = [ms]
         ∧ ((default noop f ms (run u).2).2 = None →
            out = Settles t (Reject Index.TimeoutError)))
    ∧ (timer_first (promise_of_call (run u).1) ms →
         notified = [ms]
         ∧ ((default noop f ms (run u).2).2 = None →
            out = Settles ms (Reject Index.TimeoutError)))
    ∧ (notified = [] ∨ notified = [ms]).
Proof.
  intros Hms _. rewrite session_handle by done.
  set (p := promise_of_call (run u).1). set (obs := default noop f).
  set (u1 := (run u).2).
  destruct (handle tie p ms obs u1) as [[notified out] u'] eqn:Hh.
  exists notified, out, u'. split; [done|].
  unfold handle in Hh. fold p. split; [|split; [|split]].
  - intros t s Hp Hlt Hs. revert Hh.
    rewrite Hp, timeout_task_first by done.
    destruct s as [v|e]; [by intros [= <- <- <-]|].
    unfold strict_eq. rewrite bool_decide_eq_false_2 by congruence.
    by intros [= <- <- <-].
  - intros t Hp Hlt. revert Hh.
    rewrite Hp, timeout_task_first by done.
    unfold strict_eq. rewrite bool_decide_eq_true_2 by done.
    destruct (obs ms u1) as [u2 thrown]. intros [= <- <- <-].
    split; [done|]. simpl. by intros ->.
  - intros Hp. revert Hh.
    rewrite timeout_timer_first by done.
    unfold strict_eq. rewrite bool_decide_eq_true_2 by done.
    destruct (obs ms u1) as [u2 thrown]. intros [= <- <- <-].
    split; [done|]. simpl. by intros ->.
  - revert Hh.
    destruct (Index.timeout tie p (Some ms)) as [t [v|e]|];
      try (intros [= <- <- <-]; by left).
    destruct (strict_eq e Index.TimeoutError);
      [|intros [= <- <- <-]; by left].
    destruct (obs ms u1) as [u2 thrown]. intros [= <- <- <-]. by right.
Qed.
End DeadlineClaims.

Section DeadlineExamples.
Import Deadline Samples.

Lemma deadline_notifies_on_sentinel_witness :
  (0 < 500 ∧ 500 < 2 ^ 31)
  ∧ ∃ notified out u',
      session true (Fn timing_out) (Some 500) (Some recording) []
      = inr (notified, out, u')
      ∧ (∀ t s, promise_of_call (timing_out (U:=list Z) []).1 = Settles t s → t < 500 →
           s ≠ Reject Index.TimeoutError →
           notified = [] ∧ out = Settles t s ∧ u' = (timing_out (U:=list Z) []).2)
      ∧ (∀ t, promise_of_call (timing_out (U:=list Z) []).1
                = Settles t (Reject Index.TimeoutError) →
           t < 500 →
           notified = [500]
           ∧ ((default noop (Some recording) 500 (timing_out (U:=list Z) []).2).2 = None →
              out = Settles t (Reject Index.TimeoutError)))
      ∧ (timer_first (promise_of_call (timing_out (U:=list Z) []).1) 500 →
           notified = [500]
           ∧ ((default noop (Some recording) 500 (timing_out (U:=list Z) []).2).2 = None →
              out = Settles 500 (Reject Index.TimeoutError)))
      ∧ (notified = [] ∨ notified = [500]).
Proof.
  assert (H1 : 0 < 500) by lia.
  assert (H2 : 500 < 2 ^ 31) by lia.
  split; [done|].
  apply (deadline_notifies_on_sentinel true timing_out (Some recording) []
           500 H1 H2).
Defined.

(** C3, as stated, fails: a task that rejects at once with the sentinel
    settles before the timer of 500 ms, and the observer is called. *)
Lemma deadline_notifies_task_own_timeout_error :
  promise_of_call (timing_out (U:=list Z) []).1
  = Settles 0 (Reject Index.TimeoutError)
  ∧ 0 < 500
  ∧ ∀ tie,
      session tie (Fn timing_out) (Some 500) (Some recording) []
      = inr ([500], Settles 0 (Reject Index.TimeoutError), [500]).
Proof. split; [done|]. split; [lia|]. by intros []. Qed.
End DeadlineExamples.

(** ** Tasks that throw *)

Section ThrowingTasks.
Import Retry Trace Samples More.

(** C10. A task that throws when it is called does not make the retry
    engine or the deadline wrapper throw: both return their promise, and
    the exception is handled as a rejection of the task's promise with
    what was thrown.  The engine retries: after the call that threw [e]
    comes the delay of the first retry and the call of the observer with
    [e].  The deadline wrapper forwards: its promise is rejected with
    [e] at once and the observer is not called, unless [e] is the
    sentinel [TimeoutError].  In both, the run with the task is the run
    with the task that returns [Promise.reject(e)] where the first
    throws [e]. *)
Theorem thrown_exception_becomes_rejection
    (U : Type) (fuel : nat) (type : backoff) (fn : task U)
    (retries interval : option Z) (f : option (observer U)) (u : U)
    (tie : bool) (run : Deadline.task U) (ms : option Z)
    (g : option (Deadline.observer U)) (v : U) (e : value) :
  (fn u).1 = Throw e →
  (run v).1 = Throw e →
  1 ≤ js_or retries DEFAULT_RETRIES →
  (Z.to_nat (js_or retries DEFAULT_RETRIES) < fuel)%nat →
  (∃ d rest thrown tr out w,
     session fuel type (Fn fn) retries interval f u
     = inr (Some (EvRun (Throw e)
                    :: EvTimerStart (Some d) :: EvTimerFire (Some d)
                    :: EvNotify [1; js_or retries DEFAULT_RETRIES]
                         (d :: rest) e thrown
                    :: tr, out, w)))
  ∧ (∀ fuel' type' retries' interval' f' u',
       ∃ x,
         session fuel' type' (Fn fn) retries' interval' f' u' = inr x
         ∧ session fuel' type' (Fn (rejecting fn)) retries' interval' f' u'
           = inr (as_promises <$> x))
  ∧ (e ≠ Index.TimeoutError →
     Deadline.session tie (Fn run) ms g v
     = inr ([], Settles 0 (Reject e), (run v).2))
  ∧ (∀ tie' ms' g' v',
       ∃ y,
         Deadline.session tie' (Fn run) ms' g' v' = inr y
         ∧ Deadline.session tie' (Fn (rejecting run)) ms' g' v' = inr y).
Proof.
  intros Hfn Hrun Hmax Hfuel. split; [|split; [|split]].
  - destruct (session_first_call fuel type fn retries interval f u Hfuel)
      as (tr & out & w & Hs & Hr).
    rewrite Hfn in Hs, Hr. cbn in Hr.
    pose proof (schedule_length type (js_or retries DEFAULT_RETRIES)
                  (js_or interval DEFAULT_INTERVAL)) as Hlen.
    destruct (schedule type _ _) as [|d rest]; [simpl in Hlen; lia|].
    apply rounds_begin in Hr as (thrown & tr' & ->).
    by exists d, rest, thrown, tr', out, w.
  - intros fuel' type' retries' interval' f' u'.
    rewrite !session_retry. unfold retry.
    destruct (createContext _ _ _ _) as [ctx w1].
    rewrite invoke_rejecting. destruct (invoke fn w1) as [r w2].
    eexists. split; [reflexivity|].
    f_equal. unfold settle. cbn [fst snd].
    destruct f' as [f'|]; simpl; rewrite promise_of_rejection;
      (destruct (promise_of_call r) as [t [v0|e0]|]; try done;
       unfold Helpers.notify; simpl; rewrite handle_rejecting;
       by destruct (handle _ _ _ _ _ _) as [[[tr out] w]|]).
  - intros Hne. unfold Deadline.session, Deadline.deadline.
    destruct (run v) as [r v1]. simpl in Hrun. subst r. cbn [fst snd].
    assert (Hh : ∀ ms0 obs,
              Deadline.handle tie (Settles 0 (Reject e)) ms0 obs v1
              = ([], Settles 0 (Reject e), v1)).
    { intros ms0 obs. unfold Deadline.handle, Index.timeout, Index.delay,
        Index.then_reject, Index.race. cbn [from_option id].
      destruct (Z.ltb_spec 0 (Z.max 0 ms0)).
      - unfold strict_eq. by rewrite bool_decide_eq_false_2.
      - destruct (Z.ltb_spec (Z.max 0 ms0) 0); [lia|]. simpl.
        unfold strict_eq. by rewrite bool_decide_eq_false_2. }
    destruct g; unfold Deadline.settle; simpl;
      destruct (truthy ms); by rewrite ?Hh.
  - intros tie' ms' g' v'.
    unfold Deadline.session, Deadline.deadline, rejecting.
    destruct (run v') as [[e'|p] u']; by eexists.
Qed.

Lemma thrown_exception_becomes_rejection_witness :
  ((crashing (U:=list Z) []).1 = Throw boom
   ∧ (crashing (U:=list Z) []).1 = Throw boom
   ∧ 1 ≤ js_or (Some 2) DEFAULT_RETRIES
   ∧ (Z.to_nat (js_or (Some 2%Z) DEFAULT_RETRIES) < 3)%nat)
  ∧ (∃ d rest thrown tr out w,
       session 3 CONSTANT (Fn crashing) (Some 2) (Some 10) None
         ([] : list Z)
       = inr (Some (EvRun (Throw boom)
                      :: EvTimerStart (Some d) :: EvTimerFire (Some d)
                      :: EvNotify [1; js_or (Some 2) DEFAULT_RETRIES]
                           (d :: rest) boom thrown
                      :: tr, out, w)))
    ∧ (∀ fuel' type' retries' interval' f' (u' : list Z),
         ∃ x,
           session fuel' type' (Fn crashing) retries' interval' f' u' = inr x
           ∧ session fuel' type' (Fn (rejecting crashing)) retries' interval'
               f' u'
             = inr (as_promises <$> x))
    ∧ (boom ≠ Index.TimeoutError →
       Deadline.session true (Fn crashing) (Some 1) (Some recording) []
       = inr ([], Settles 0 (Reject boom), (crashing (U:=list Z) []).2))
    ∧ (∀ tie' ms' g' (v' : list Z),
         ∃ y,
           Deadline.session tie' (Fn crashing) ms' g' v' = inr y
           ∧ Deadline.session tie' (Fn (rejecting crashing)) ms' g' v'
             = inr y).
Proof.
  assert (H1 : (crashing (U:=list Z) []).1 = Throw boom) by reflexivity.
  assert (H3 : 1 ≤ js_or (Some 2) DEFAULT_RETRIES) by (by vm_compute).
  assert (H4 : (Z.to_nat (js_or (Some 2%Z) DEFAULT_RETRIES) < 3)%nat)
    by (vm_compute; lia).
  split; [done|].
  apply (thrown_exception_becomes_rejection (list Z) 3 CONSTANT crashing
           (Some 2) (Some 10) None [] true crashing (Some 1)
           (Some recording) [] boom H1 H1 H3 H4).
Defined.

(** A task that throws at every call, as in the package's tests: the
    engine goes through its two retries, showing the observer what was
    thrown, and rejects with it; the deadline wrapper rejects with it at
    once and does not call the observer. *)
Example crashing_task_is_retried_and_forwarded :
  (∃ w,
     session 3 CONSTANT (Fn crashing) (Some 2) (Some 10) None tt
     = inr (Some ([EvRun (Throw boom);
                   EvTimerStart (Some 10); EvTimerFire (Some 10);
                   EvNotify [1; 2] [10; 10] boom None;
                   EvRun (Throw boom);
                   EvTimerStart (Some 10); EvTimerFire (Some 10);
                   EvNotify [2; 2] [10] boom None;
                   EvRun (Throw boom)], Rejected boom, w)))
  ∧ Deadline.session true (Fn crashing) (Some 1) (Some recording) []
    = inr ([], Settles 0 (Reject boom), []).
Proof. split; [by eexists|done]. Qed.
End ThrowingTasks.

(** * More on runs *)

Section MoreShapeFacts.
Import Retry Trace More.
Context {U : Type}.
Implicit Types (w : world U) (ctx : Ctx) (fn : task U) (notify : observer U).

Lemma snapshots_count tr : length (snapshots tr) = count is_notify tr.
Proof. induction tr as [|[] tr IH]; simpl; congruence. Qed.

Lemma timers_count tr : length (timers tr) = count is_timer_start tr.
Proof. induction tr as [|[] tr IH]; simpl; congruence. Qed.

Lemma calls_count tr : length (calls tr) = count is_run tr.
Proof. induction tr as [|[] tr IH]; simpl; congruence. Qed.

(** Whatever the observer does. *)
Lemma rounds_bounds fn notify max done ivs err tr out :
  rounds fn notify max done ivs err tr out →
  count is_timer_start tr = count is_notify tr
  ∧ (count is_notify tr ≤ length ivs)%nat
  ∧ (count is_run tr ≤ count is_notify tr)%nat.
Proof.
  induction 1 as [done err|done d ivs err e tr out Hre Hrs IH
                 |done d ivs err r e tr out Hre Hr Hf Hrs IH
                 |done d ivs err r t v Hre Hr Hp|done d ivs err r Hre Hr Hp];
    simpl; lia.
Qed.

Lemma last_cause_after (ev : event) (p front : list event) (e e' : value) :
  cause ev = Some e →
  match last p with
  | None => e' = e
  | Some ev' => cause ev' = Some e'
  end →
  ∃ ev', last (front ++ ev :: p) = Some ev' ∧ cause ev' = Some e'.
Proof.
  intros Hev Hp.
  replace (front ++ ev :: p) with ((front ++ [ev]) ++ p)
    by by rewrite <- app_assoc.
  destruct p as [|x p _] using rev_ind.
  - rewrite app_nil_r, last_snoc. simpl in Hp. subst e'. by exists ev.
  - rewrite app_assoc, last_snoc. rewrite last_snoc in Hp. by exists x.
Qed.

Lemma rounds_rejected fn notify max done ivs err tr out e :
  rounds fn notify max done ivs err tr out → out = Rejected e →
  count is_notify tr = length ivs
  ∧ match last tr with
    | None => e = err
    | Some ev => cause ev = Some e
    end.
Proof.
  induction 1 as [done err|done d ivs err e0 tr out Hre Hrs IH
                 |done d ivs err r e0 tr out Hre Hr Hf Hrs IH
                 |done d ivs err r t v Hre Hr Hp|done d ivs err r Hre Hr Hp];
    intros Hout; try done.
  - by injection Hout as <-.
  - destruct (IH Hout) as [IH1 IH2]. split; [simpl; lia|].
    destruct (last_cause_after
                (EvNotify [done + 1; max] (d :: ivs) err (Some e0)) tr
                [EvTimerStart (Some d); EvTimerFire (Some d)] e0 e eq_refl IH2)
      as (ev' & Hl & Hc).
    cbn [app] in Hl. by rewrite Hl.
  - destruct (IH Hout) as [IH1 IH2]. split; [simpl; lia|].
    destruct (last_cause_after (EvRun r) tr
                [EvTimerStart (Some d); EvTimerFire (Some d);
                 EvNotify [done + 1; max] (d :: ivs) err None] e0 e Hf IH2)
      as (ev' & Hl & Hc).
    cbn [app] in Hl. by rewrite Hl.
Qed.

Lemma rounds_not_rejected fn notify max done ivs err tr out :
  rounds fn notify max done ivs err tr out →
  (∀ e, out ≠ Rejected e) →
  ∃ pre r, tr = pre ++ [EvRun r]
           ∧ failure_of r = None
           ∧ out = outcome_of (promise_of_call r)
           ∧ Forall failed (calls pre).
Proof.
  induction 1 as [done err|done d ivs err e0 tr out Hre Hrs IH
                 |done d ivs err r e0 tr out Hre Hr Hf Hrs IH
                 |done d ivs err r t v Hre Hr Hp|done d ivs err r Hre Hr Hp];
    intros Hout.
  - by destruct (Hout err).
  - destruct (IH Hout) as (pre & r & -> & Hf & Ho & Hall).
    by eexists (_ :: _ :: _ :: pre), r.
  - destruct (IH Hout) as (pre & r' & -> & Hf' & Ho & Hall).
    eexists (_ :: _ :: _ :: _ :: pre), r'. repeat split; try done.
    simpl. constructor; [by exists e0|done].
  - eexists [_; _; _], r. unfold failure_of. rewrite Hp. by repeat split.
  - eexists [_; _; _], r. unfold failure_of. rewrite Hp. by repeat split.
Qed.
End MoreShapeFacts.

Section MoreRetryFacts.
Import Retry Trace More.
Context {U : Type}.
Implicit Types (fn : task U).

Lemma total_app l1 l2 : total (l1 ++ l2) = total l1 + total l2.
Proof. induction l1 as [|x l1 IH]; simpl; lia. Qed.

Lemma total_constant_loop n interval res :
  total (constant_loop n interval res) = total res + Z.of_nat n * interval.
Proof.
  revert res. induction n as [|n IH]; intros res; simpl; [lia|].
  rewrite IH, total_app. simpl. lia.
Qed.

Lemma total_exponential_loop n next res :
  total (exponential_loop n next res)
  = total res + next * (2 ^ Z.of_nat n - 1).
Proof.
  revert next res. induction n as [|n IH]; intros next res; [simpl; lia|].
  cbn [exponential_loop]. rewrite IH, total_app.
  rewrite Nat2Z.inj_succ, Z.pow_succ_r by lia. simpl. lia.
Qed.

Lemma attempts_bounds fn notify max sched tr out :
  attempts fn notify max sched tr out →
  count is_timer_start tr = count is_notify tr
  ∧ (count is_notify tr ≤ length sched)%nat
  ∧ (1 ≤ count is_run tr ≤ 1 + count is_notify tr)%nat.
Proof.
  destruct 1 as [r t v Hr Hp|r Hr Hp|r e tr out Hr Hf Hrs]; simpl;
    [lia..|].
  destruct (rounds_bounds _ _ _ _ _ _ _ _ Hrs) as (H1 & H2 & H3). lia.
Qed.

Lemma attempts_rejected fn notify max sched tr out e :
  attempts fn notify max sched tr out → out = Rejected e →
  count is_notify tr = length sched
  ∧ ∃ ev, last tr = Some ev ∧ cause ev = Some e.
Proof.
  destruct 1 as [r t v Hr Hp|r Hr Hp|r e0 tr out Hr Hf Hrs]; intros Hout;
    try done.
  destruct (rounds_rejected _ _ _ _ _ _ _ _ e Hrs Hout) as [H1 H2].
  split; [done|].
  by apply (last_cause_after (EvRun r) tr [] e0 e).
Qed.

Lemma attempts_not_rejected fn notify max sched tr out :
  attempts fn notify max sched tr out →
  (∀ e, out ≠ Rejected e) →
  ∃ pre r, tr = pre ++ [EvRun r]
           ∧ failure_of r = None
           ∧ out = outcome_of (promise_of_call r)
           ∧ Forall failed (calls pre).
Proof.
  destruct 1 as [r t v Hr Hp|r Hr Hp|r e0 tr out Hr Hf Hrs]; intros Hout.
  - exists [], r. unfold failure_of. rewrite Hp. by repeat split.
  - exists [], r. unfold failure_of. rewrite Hp. by repeat split.
  - destruct (rounds_not_rejected _ _ _ _ _ _ _ _ Hrs Hout)
      as (pre & r' & -> & Hf' & Ho & Hall).
    exists (EvRun r :: pre), r'. repeat split; try done.
    simpl. constructor; [by exists e0|done].
Qed.
End MoreRetryFacts.

Section MoreEngineFacts.
Import Retry Trace More.
Context {U : Type}.
Implicit Types (w : world U) (ctx : Ctx) (fn : task U) (notify : observer U).

Lemma span_fmap_Some (l : list Z) :
  Forall (λ d, 1 ≤ d ≤ 2 ^ 31 - 1) l → span <$> (Some <$> l) = l.
Proof.
  induction 1 as [|x l Hx _ IH]; [done|]. rewrite !fmap_cons, IH. f_equal.
  unfold span. destruct (Z.leb_spec 1 x); [|lia].
  by destruct (Z.leb_spec x (2 ^ 31 - 1)); [|lia].
Qed.

Lemma schedule_within_timer_range type (r i : Z) :
  1 ≤ r → 1 ≤ i →
  match type with
  | CONSTANT => i
  | EXPONENTIAL => i * 2 ^ (r - 1)
  end ≤ 2 ^ 31 - 1 →
  Forall (λ d, 1 ≤ d ≤ 2 ^ 31 - 1) (schedule type r i).
Proof.
  intros Hr Hi Htop. apply Forall_lookup_2. intros k d Hk.
  assert (Hlt : (k < Z.to_nat r)%nat).
  { rewrite <- (schedule_length type r i). by eapply lookup_lt_Some. }
  destruct type; simpl in Hk.
  - unfold createConstantIntervals in Hk. rewrite constant_loop_spec in Hk.
    simpl in Hk. apply lookup_replicate_1 in Hk as [-> _]. lia.
  - unfold createExponentialIntervals in Hk.
    rewrite (exponential_loop_lookup_new _ _ [] k) in Hk by done.
    injection Hk as <-.
    assert (H1 : 2 ^ Z.of_nat k ≤ 2 ^ (r - 1))
      by (apply Z.pow_le_mono_r; lia).
    assert (H2 : 0 < 2 ^ Z.of_nat k) by (apply Z.pow_pos_nonneg; lia).
    nia.
Qed.


End MoreEngineFacts.

(** * Further properties *)

(** ** The retry engine, whatever the observer does *)

Section MoreRetryProperties.
Import Retry Trace More.
Context {U : Type}.
Implicit Types (fn : task U).

(** X1. When the promise of the engine is not rejected, the run ends with
    a call of the task that did not fail and the promise comes to what
    that call came to, fulfilled with its value or pending with it; every
    call before it failed.  The task is not called again after a call
    that does not fail. *)
Theorem run_stops_at_first_call_that_does_not_fail
    (fuel : nat) (type : backoff) fn (retries interval : option Z)
    (f : option (observer U)) (u : U) :
  (Z.to_nat (js_or retries DEFAULT_RETRIES) < fuel)%nat →
  ∃ tr out w,
    session fuel type (Fn fn) retries interval f u = inr (Some (tr, out, w))
    ∧ ((∀ e, out ≠ Rejected e) →
       ∃ pre r,
         tr = pre ++ [EvRun r]
         ∧ failure_of r = None
         ∧ out = outcome_of (promise_of_call r)
         ∧ Forall failed (calls pre)).
Proof.
  intros Hfuel.
  destruct (session_attempts fuel type fn retries interval f u Hfuel)
    as (tr & out & w & Hs & Hat).
  exists tr, out, w. split; [done|]. by eapply attempts_not_rejected.
Qed.

(** X2. The promise of the engine is rejected only when every retry was
    used: the observer was called as many times as the schedule is long;
    and it is rejected with the failure of the last event of the run, the
    last call of the task or the last call of the observer if that
    threw. *)
Theorem rejection_only_after_all_retries
    (fuel : nat) (type : backoff) fn (retries interval : option Z)
    (f : option (observer U)) (u : U) :
  (Z.to_nat (js_or retries DEFAULT_RETRIES) < fuel)%nat →
  ∃ tr out w,
    session fuel type (Fn fn) retries interval f u = inr (Some (tr, out, w))
    ∧ ∀ e, out = Rejected e →
        count is_notify tr = Z.to_nat (js_or retries DEFAULT_RETRIES)
        ∧ ∃ ev, last tr = Some ev ∧ cause ev = Some e.
Proof.
  intros Hfuel.
  destruct (session_attempts fuel type fn retries interval f u Hfuel)
    as (tr & out & w & Hs & Hat).
  exists tr, out, w. split; [done|]. intros e He.
  destruct (attempts_rejected _ _ _ _ _ _ e Hat He) as [H1 H2].
  by rewrite schedule_length in H1.
Qed.

(** X3. Whatever the task and the observer do, a run sets one timer per
    call of the observer, calls the observer at most as many times as the
    schedule is long, and calls the task at least once and at most once
    more than the observer. *)
Theorem retries_never_exceed_schedule
    (fuel : nat) (type : backoff) fn (retries interval : option Z)
    (f : option (observer U)) (u : U) :
  (Z.to_nat (js_or retries DEFAULT_RETRIES) < fuel)%nat →
  ∃ tr out w,
    session fuel type (Fn fn) retries interval f u = inr (Some (tr, out, w))
    ∧ count is_timer_start tr = count is_notify tr
    ∧ (count is_notify tr ≤ Z.to_nat (js_or retries DEFAULT_RETRIES))%nat
    ∧ (1 ≤ count is_run tr ≤ 1 + count is_notify tr)%nat.
Proof.
  intros Hfuel.
  destruct (session_attempts fuel type fn retries interval f u Hfuel)
    as (tr & out & w & Hs & Hat).
  exists tr, out, w. split; [done|].
  destruct (attempts_bounds _ _ _ _ _ _ Hat) as (H1 & H2 & H3).
  by rewrite schedule_length in H2.
Qed.

(** X4. When the first call of the task does not fail, nothing else
    happens: no timer, no call of the observer, no second call, and the
    promise comes to what the call came to, whatever the number of
    retries. *)
Theorem first_call_that_does_not_fail_ends_run
    (fuel : nat) (type : backoff) fn (retries interval : option Z)
    (f : option (observer U)) (u : U) :
  failure_of (fn u).1 = None →
  ∃ w,
    session fuel type (Fn fn) retries interval f u
    = inr (Some ([EvRun (fn u).1], outcome_of (promise_of_call (fn u).1), w))
    ∧ user w = (fn u).2.
Proof.
  intros Hf. rewrite session_retry. unfold retry.
  destruct (createContext _ _ _ _) as [ctx w1] eqn:Hctx.
  apply createContext_owns in Hctx as [Ho Hu].
  destruct (owns_invoke fn _ _ _ _ Ho) as (w2 & -> & _ & Hu2).
  rewrite Hu in *. unfold settle, failure_of in *.
  destruct f as [f|]; simpl;
    destruct (promise_of_call (fn u).1) as [t [v|e]|]; try done;
    by eexists.
Qed.

(** X5. A task that fails at every call, with an observer that returns
    normally, is called exactly once more than the schedule is long, and
    the observer exactly as many times as the schedule is long. *)
Theorem failing_task_uses_every_retry
    (fuel : nat) (type : backoff) fn (retries interval : option Z)
    (f : option (observer U)) (u : U) :
  always_fails fn →
  never_throws (default noop f) →
  (Z.to_nat (js_or retries DEFAULT_RETRIES) < fuel)%nat →
  ∃ tr out w,
    session fuel type (Fn fn) retries interval f u = inr (Some (tr, out, w))
    ∧ count is_notify tr = Z.to_nat (js_or retries DEFAULT_RETRIES)
    ∧ count is_run tr = S (Z.to_nat (js_or retries DEFAULT_RETRIES)).
Proof.
  intros Hfail Hnt Hfuel.
  destruct (session_attempts fuel type fn retries interval f u Hfuel)
    as (tr & out & w & Hs & Hat).
  exists tr, out, w. split; [done|].
  destruct (attempts_snapshots _ _ _ _ _ _ Hat) as (_ & _ & Hn).
  destruct (attempts_counts _ _ _ _ _ _ Hnt Hat) as (Hc & _).
  rewrite <- snapshots_count, (Hn Hfail), schedule_length in *. done.
Qed.

(** X6. In every context the observer is shown, the counters are
    [[done, max]] with [1 ≤ done ≤ max], and the intervals left are
    [max - done + 1]: the one being consumed and one for each retry
    left. *)
Theorem shown_counter_within_bounds
    (fuel : nat) (type : backoff) fn (retries interval : option Z)
    (f : option (observer U)) (u : U) :
  (Z.to_nat (js_or retries DEFAULT_RETRIES) < fuel)%nat →
  ∃ tr out w,
    session fuel type (Fn fn) retries interval f u = inr (Some (tr, out, w))
    ∧ ∀ rs ivs, (rs, ivs) ∈ snapshots tr →
        ∃ done,
          rs = [done; js_or retries DEFAULT_RETRIES]
          ∧ 1 ≤ done ≤ js_or retries DEFAULT_RETRIES
          ∧ Z.of_nat (length ivs) = js_or retries DEFAULT_RETRIES - done + 1.
Proof.
  intros Hfuel.
  destruct (session_attempts fuel type fn retries interval f u Hfuel)
    as (tr & out & w & Hs & Hat).
  exists tr, out, w. split; [done|].
  destruct (attempts_snapshots _ _ _ _ _ _ Hat) as (H1 & _ & _).
  destruct (attempts_bounds _ _ _ _ _ _ Hat) as (_ & H2 & _).
  rewrite <- snapshots_count, schedule_length in H2.
  intros rs ivs Hin. rewrite H1 in Hin.
  apply list_elem_of_fmap in Hin as (k & [= -> ->] & Hk).
  apply elem_of_seq in Hk.
  exists (Z.of_nat k + 1). split; [done|]. split; [lia|].
  rewrite length_drop, schedule_length. lia.
Qed.
End MoreRetryProperties.

(** ** Schedules, defaults and the context *)

Section MoreContextProperties.
Import Retry Trace More.
Context {U : Type}.
Implicit Types (fn : task U).

Lemma total_of_schedules (r i : Z) :
  0 ≤ r →
  total (createConstantIntervals r i) = r * i
  ∧ total (createExponentialIntervals r i) = i * (2 ^ r - 1).
Proof.
  intros Hr. unfold createConstantIntervals, createExponentialIntervals.
  rewrite total_constant_loop, total_exponential_loop. simpl.
  rewrite Z2Nat.id by lia. split; lia.
Qed.

(** X7. Below overflow, that is as long as the last delay [i × 2^(r-1)]
    of the exponential schedule is below [2^1024] in magnitude, the
    schedules of [r] retries are lists of integers; the delays of the
    constant schedule add up to [r × i], those of the exponential
    schedule to [i × (2^r - 1)]. *)
Theorem schedule_totals (r i : Z) :
  0 ≤ r →
  Binary64.held i →
  Z.abs i * 2 ^ (r - 1) < 2 ^ 1024 →
  Binary64.createConstantIntervals r (Binary64.Num i)
  = Binary64.Num <$> createConstantIntervals r i
  ∧ total (createConstantIntervals r i) = r * i
  ∧ Binary64.createExponentialIntervals r (Binary64.Num i)
    = Binary64.Num <$> createExponentialIntervals r i
  ∧ total (createExponentialIntervals r i) = i * (2 ^ r - 1).
Proof.
  intros Hr _ Hov. destruct (total_of_schedules r i Hr) as [Hc He].
  destruct (schedule_exact_below_overflow r i Hov) as [Hbc Hbe].
  by split_and!.
Qed.

(** X8. A run against a task that fails at every call waits for the whole
    schedule, whatever the observer does: [r × i] milliseconds in all with
    constant back-off and [i × (2^r - 1)] with exponential back-off,
    where [i] is the interval, 1000 when it is missing or 0.  This is for
    a positive interval and delays up to [2^31 - 1], which [setTimeout]
    waits for as they are. *)
Theorem exhausted_run_waits_whole_schedule
    (fuel : nat) (type : backoff) fn (r : Z) (interval : option Z)
    (f : option (observer U)) (u : U) :
  1 ≤ r →
  1 ≤ js_or interval DEFAULT_INTERVAL →
  match type with
  | CONSTANT => js_or interval DEFAULT_INTERVAL
  | EXPONENTIAL => js_or interval DEFAULT_INTERVAL * 2 ^ (r - 1)
  end ≤ 2 ^ 31 - 1 →
  always_fails fn →
  (Z.to_nat r < fuel)%nat →
  ∃ tr out w,
    session fuel type (Fn fn) (Some r) interval f u = inr (Some (tr, out, w))
    ∧ waited tr
      = match type with
        | CONSTANT => r * js_or interval DEFAULT_INTERVAL
        | EXPONENTIAL => js_or interval DEFAULT_INTERVAL * (2 ^ r - 1)
        end.
Proof.
  intros Hr Hi Htop Hfail Hfuel.
  assert (Hmax : js_or (Some r) DEFAULT_RETRIES = r).
  { unfold js_or. destruct (Z.eqb_spec r 0); [lia|done]. }
  destruct (session_attempts fuel type fn (Some r) interval f u)
    as (tr & out & w & Hs & Hat); [by rewrite Hmax|].
  exists tr, out, w. split; [done|].
  destruct (attempts_snapshots _ _ _ _ _ _ Hat) as (_ & Ht & Hn).
  unfold waited. rewrite Ht, (Hn Hfail), firstn_all, Hmax.
  rewrite span_fmap_Some by by apply schedule_within_timer_range.
  destruct (total_of_schedules r (js_or interval DEFAULT_INTERVAL)) as [H1 H2];
    [lia|].
  by destruct type.
Qed.

(** X9. With a negative number of retries the task is called once and
    never retried: no timer, no call of the observer, and the promise
    comes to what the call came to. *)
Theorem negative_retries_never_retry
    (fuel : nat) (type : backoff) fn (r : Z) (interval : option Z)
    (f : option (observer U)) (u : U) :
  r < 0 →
  (0 < fuel)%nat →
  ∃ w,
    session fuel type (Fn fn) (Some r) interval f u
    = inr (Some ([EvRun (fn u).1], outcome_of (promise_of_call (fn u).1), w)).
Proof.
  intros Hr Hfuel. rewrite session_retry. unfold retry.
  assert (Hmax : js_or (Some r) DEFAULT_RETRIES = r).
  { unfold js_or. destruct (Z.eqb_spec r 0); [lia|done]. }
  rewrite Hmax.
  destruct (createContext _ _ _ _) as [ctx w1] eqn:Hctx.
  apply createContext_owns in Hctx as [Ho Hu].
  destruct (owns_invoke fn _ _ _ _ Ho) as (w2 & -> & Ho2 & _).
  rewrite Hu. unfold settle.
  assert (Hh : ∀ notify e,
             handle fuel fn notify ctx e w2 = Some ([], Rejected e, w2)).
  { intros notify e. destruct fuel as [|fuel]; [lia|].
    cbn [handle]. rewrite (owns_read_retries _ _ _ _ Ho2).
    by destruct (Z.ltb_spec 0 r); [lia|]. }
  destruct f as [f|]; simpl;
    destruct (promise_of_call (fn u).1) as [t [v|e]|]; try by eexists.
  - rewrite Hh. by eexists.
  - rewrite Hh. by eexists.
Qed.

(** X10. An interval that is missing or 0 is replaced by 1000: with
    constant back-off every delay waited for is 1000 ms, never 0. *)
Theorem missing_interval_waits_default
    (fuel : nat) fn (retries interval : option Z)
    (f : option (observer U)) (u : U) :
  interval = None ∨ interval = Some 0 →
  (Z.to_nat (js_or retries DEFAULT_RETRIES) < fuel)%nat →
  ∃ tr out w,
    session fuel CONSTANT (Fn fn) retries interval f u
    = inr (Some (tr, out, w))
    ∧ ∀ d, d ∈ timers tr → d = Some 1000.
Proof.
  intros Hi Hfuel.
  destruct (session_attempts fuel CONSTANT fn retries interval f u Hfuel)
    as (tr & out & w & Hs & Hat).
  exists tr, out, w. split; [done|].
  destruct (attempts_snapshots _ _ _ _ _ _ Hat) as (_ & Ht & _).
  assert (Hd : js_or interval DEFAULT_INTERVAL = 1000)
    by (destruct Hi as [-> | ->]; done).
  rewrite Hd in Ht. intros d Hin. rewrite Ht in Hin.
  apply list_elem_of_fmap in Hin as (x & -> & Hx).
  apply elem_of_take in Hx as (k & Hx & _).
  simpl in Hx. unfold createConstantIntervals in Hx.
  rewrite constant_loop_spec in Hx. simpl in Hx.
  by apply lookup_replicate in Hx as [-> _].
Qed.

(** X11. [cloneContext] makes two new arrays, different from each other
    and from every array there was, that hold what the arrays of the
    context hold; it changes no array there was, and passes no
    reference on. *)
Theorem cloneContext_copies_into_new_arrays (ctx : Ctx) (w : world U) :
  ctx_retries ctx ∈ dom (heap w) →
  ctx_intervals ctx ∈ dom (heap w) →
  ∃ clone w',
    cloneContext ctx w = (clone, w')
    ∧ read (ctx_retries clone) w' = read (ctx_retries ctx) w
    ∧ read (ctx_intervals clone) w' = read (ctx_intervals ctx) w
    ∧ (ctx_retries clone ∉ dom (heap w))
    ∧ (ctx_intervals clone ∉ dom (heap w))
    ∧ ctx_retries clone ≠ ctx_intervals clone
    ∧ (∀ l, l ∈ dom (heap w) → heap w' !! l = heap w !! l)
    ∧ handed w' = handed w
    ∧ user w' = user w.
Proof.
  intros Hr Hi. unfold cloneContext.
  destruct (alloc (read (ctx_retries ctx) w) w) as [r w1] eqn:H1.
  destruct (alloc (read (ctx_intervals ctx) w1) w1) as [i w2] eqn:H2.
  apply alloc_spec in H1 as (Hfr & Hh1 & Hd1 & Hu1).
  apply alloc_spec in H2 as (Hfi & Hh2 & Hd2 & Hu2).
  apply not_elem_of_dom in Hfr.
  assert (Hir : i ≠ r).
  { intros ->. by rewrite Hh1, lookup_insert_eq in Hfi. }
  assert (Hfi' : i ∉ dom (heap w)).
  { apply not_elem_of_dom. by rewrite Hh1, lookup_insert_ne in Hfi. }
  assert (Hri : read (ctx_intervals ctx) w1 = read (ctx_intervals ctx) w).
  { unfold read. rewrite Hh1, lookup_insert_ne; [done|]. by intros ->. }
  exists {| ctx_retries := r; ctx_intervals := i |}, w2.
  split; [done|]. simpl. unfold read at 1 3.
  rewrite Hh2, Hh1, lookup_insert_eq, lookup_insert_ne, lookup_insert_eq
    by done.
  repeat split; try done; try congruence.
  intros l Hl. rewrite !lookup_insert_ne; [done|by intros ->..].
Qed.

End MoreContextProperties.

(** X13. The retry engine and the deadline wrapper throw when they are
    called exactly when the task is not a function, and then with the
    error that says so; nothing else makes them throw. *)
Theorem throws_at_call_iff_not_function :
  (∀ (U : Type) fuel type (run : arg (Retry.task U)) retries interval f
     (u : U) e,
     Retry.session fuel type run retries interval f u = inl e
     ↔ (∃ v, run = NotFn v)
       ∧ e = Error "Expected `run` to be a function.")
  ∧ (∀ (U : Type) tie (run : arg (Deadline.task U)) ms f (u : U) e,
       Deadline.session tie run ms f u = inl e
       ↔ (∃ v, run = NotFn v)
         ∧ e = Error "Expected `run` to be a function.").
Proof.
  split.
  - intros U fuel type run retries interval f u e. rewrite session_retry.
    destruct run as [fn|v]; unfold Retry.retry.
    + destruct (Retry.createContext _ _ _ _) as [ctx w1].
      destruct (Retry.invoke fn w1) as [r w2].
      split; [done|]. by intros [[v [=]] _].
    + split; [intros [= <-]; eauto|]. by intros [_ ->].
  - intros U tie run ms f u e. unfold Deadline.session, Deadline.deadline.
    destruct run as [fn|v].
    + destruct (fn u) as [r u']. split; [done|]. by intros [[v [=]] _].
    + split; [intros [= <-]; eauto|]. by intros [_ ->].
Qed.

(** ** Timers and deadlines *)

Lemma timeout_result (tie : bool) (p : Promise)
    (ms : option Z) :
  (Index.timeout tie p ms = p
   ∨ Index.timeout tie p ms
     = Settles (Z.max 0 (default 0 ms)) (Reject Index.TimeoutError))
  ∧ ∃ t s, Index.timeout tie p ms = Settles t s
           ∧ t ≤ Z.max 0 (default 0 ms).
Proof.
  unfold Index.timeout, Index.delay, Index.then_reject, Index.race.
  set (limit := Z.max 0 (default 0 ms)).
  destruct p as [t s|]; [|split; [by right|by eexists _, _]].
  destruct (Z.ltb_spec t limit); [split; [by left|eexists _, _; split; [done|lia]]|].
  destruct (Z.ltb_spec limit t); [split; [by right|by eexists _, _]|].
  destruct ((t =? 0) || tie).
  - split; [by left|]. eexists _, _. split; [done|lia].
  - split; [by right|]. by eexists _, _.
Qed.

(** X14. For [ms] from 1 to [2^31 - 1], the delays [setTimeout] waits
    for as they are, [timeout] never leaves its promise pending and never
    changes what the promise settles with: its result is the promise
    itself, or the rejection with [TimeoutError] after [ms]
    milliseconds, and it has settled by then. *)
Theorem timeout_settles_by_its_timer (tie : bool) (p : Promise) (ms : Z) :
  1 ≤ ms →
  ms < 2 ^ 31 →
  (Index.timeout tie p (Some ms) = p
   ∨ Index.timeout tie p (Some ms) = Settles ms (Reject Index.TimeoutError))
  ∧ ∃ t s, Index.timeout tie p (Some ms) = Settles t s ∧ t ≤ ms.
Proof.
  intros Hms _. destruct (timeout_result tie p (Some ms)) as [Hres Hby].
  cbn [from_option id] in Hres, Hby. rewrite Z.max_r in Hres, Hby by lia.
  split; [|exact Hby].
  destruct Hres; [by left|by right].
Qed.

Lemma timeout_settles_by_its_timer_witness :
  (1 ≤ 10 ∧ 10 < 2 ^ 31)
  ∧ (Index.timeout true Never (Some 10) = Never
     ∨ Index.timeout true Never (Some 10)
       = Settles 10 (Reject Index.TimeoutError))
    ∧ ∃ t s, Index.timeout true Never (Some 10) = Settles t s ∧ t ≤ 10.
Proof.
  assert (H1 : 1 ≤ 10) by lia. assert (H2 : 10 < 2 ^ 31) by lia.
  split; [done|]. apply (timeout_settles_by_its_timer true Never 10 H1 H2).
Defined.

(** X15. Racing [delay(d)] against a timer of [ms], both from 1 to
    [2^31 - 1]: when the delay is the shorter, [timeout] fulfils as the
    delay does, after [d]; when it is the longer, [timeout] rejects with
    [TimeoutError] after [ms]. *)
Theorem timeout_of_delay (tie : bool) (d ms : Z) :
  1 ≤ d < 2 ^ 31 → 1 ≤ ms < 2 ^ 31 → d ≠ ms →
  Index.timeout tie (Index.delay (Some d)) (Some ms)
  = if d <? ms then Settles d (Fulfill VUndefined)
    else Settles ms (Reject Index.TimeoutError).
Proof.
  intros Hd Hms Hne.
  unfold Index.timeout, Index.delay, Index.then_reject, Index.race.
  cbn [from_option id]. rewrite !Z.max_r by lia.
  destruct (Z.ltb_spec d ms); [done|].
  by destruct (Z.ltb_spec ms d); [|lia].
Qed.

Lemma timeout_of_delay_witness :
  (1 ≤ 5 < 2 ^ 31 ∧ 1 ≤ 1 < 2 ^ 31 ∧ 5 ≠ 1)
  ∧ Index.timeout true (Index.delay (Some 5)) (Some 1)
    = if 5 <? 1 then Settles 5 (Fulfill VUndefined)
      else Settles 1 (Reject Index.TimeoutError).
Proof.
  assert (H1 : 1 ≤ 5 < 2 ^ 31) by lia. assert (H2 : 1 ≤ 1 < 2 ^ 31) by lia.
  assert (H3 : 5 ≠ 1) by lia.
  split; [done|]. apply (timeout_of_delay true 5 1 H1 H2 H3).
Defined.

Section MoreDeadlineProperties.
Import Deadline More.
Context {U : Type}.

(** X16. With [ms] missing or 0 no deadline applies: the promise is the
    promise of the call of the task, pending for ever if that is, and the
    observer is never called. *)
Theorem deadline_without_ms_is_the_task
    (tie : bool) (run : task U) (ms : option Z)
    (f : option (observer U)) (u : U) :
  ms = None ∨ ms = Some 0 →
  session tie (Fn run) ms f u
  = inr ([], promise_of_call (run u).1, (run u).2).
Proof.
  intros Hms. unfold session, deadline. destruct (run u) as [r u1].
  destruct Hms as [-> | ->]; by destruct f.
Qed.

(** X17. With [ms > 0] the promise of [deadline] has settled after [ms]
    milliseconds at the latest, whatever the task and the observer do,
    also when the task never settles. *)
Theorem deadline_settles_by_ms
    (tie : bool) (run : task U) (f : option (observer U)) (u : U) (ms : Z) :
  0 < ms →
  ∃ notified t s u',
    session tie (Fn run) (Some ms) f u = inr (notified, Settles t s, u')
    ∧ t ≤ ms.
Proof.
  intros Hms. rewrite session_handle by done. unfold handle.
  destruct (timeout_result tie (promise_of_call (run u).1)
              (Some ms)) as [_ (t & s & -> & Ht)].
  cbn [from_option id] in Ht. rewrite Z.max_r in Ht by lia.
  destruct s as [v|e]; [by eexists _, _, _, _|].
  destruct (strict_eq e Index.TimeoutError); [|by eexists _, _, _, _].
  destruct (default noop f ms (run u).2) as [u2 thrown].
  by eexists _, _, _, _.
Qed.


(** X19. [deadline] never turns a failure into a success and never calls
    the observer on a success: when its promise is fulfilled, the task's
    promise was fulfilled at that instant with that value, the observer
    was not called and the caller's state is as the task left it. *)
Theorem deadline_fulfils_only_as_the_task
    (tie : bool) (run : task U) (ms : option Z) (f : option (observer U))
    (u : U) notified t v u' :
  session tie (Fn run) ms f u = inr (notified, Settles t (Fulfill v), u') →
  promise_of_call (run u).1 = Settles t (Fulfill v)
  ∧ notified = [] ∧ u' = (run u).2.
Proof.
  unfold session, deadline. destruct (run u) as [r u1]. cbn [fst snd].
  set (p := {| dl_promise := promise_of_call r; dl_ms := ms;
               dl_notifier := Helpers.createNotifier noop |}).
  set (p' := match f with Some f0 => (register p (Fn f0)).1 | None => p end).
  assert (Hp' : dl_promise p' = promise_of_call r ∧ dl_ms p' = ms)
    by (subst p'; destruct f; done).
  destruct Hp' as [Hp1 Hp2]. unfold settle. rewrite Hp1, Hp2.
  destruct (truthy ms); [|by intros [= <- <- <-]].
  unfold handle.
  destruct (timeout_result tie (promise_of_call r)
              (Some (default 0 ms))) as [[-> | ->] _].
  - destruct (promise_of_call r) as [t' [v'|e]|]; try by intros [= <- <- <- <-].
    destruct (strict_eq e Index.TimeoutError); [|done].
    by destruct (Helpers.notify (dl_notifier p') (default 0 ms) u1).
  - unfold strict_eq. rewrite bool_decide_eq_true_2 by done.
    by destruct (Helpers.notify (dl_notifier p') (default 0 ms) u1).
Qed.
End MoreDeadlineProperties.

(** ** Instances *)

Section MoreInstances.
Import Retry Trace Samples More.

Lemma run_stops_at_first_call_that_does_not_fail_witness :
  (Z.to_nat (js_or (Some 3%Z) DEFAULT_RETRIES) < 4)%nat
  ∧ ∃ tr out w,
      session 4 CONSTANT (Fn third) (Some 3) (Some 1) None 0%nat
      = inr (Some (tr, out, w))
      ∧ ((∀ e, out ≠ Rejected e) →
         ∃ pre r,
           tr = pre ++ [EvRun r]
           ∧ failure_of r = None
           ∧ out = outcome_of (promise_of_call r)
           ∧ Forall failed (calls pre)).
Proof.
  split; [vm_compute; lia|].
  apply (run_stops_at_first_call_that_does_not_fail 4 CONSTANT third
           (Some 3) (Some 1) None 0%nat).
  vm_compute; lia.
Defined.

Lemma rejection_only_after_all_retries_witness :
  (Z.to_nat (js_or (Some 3%Z) DEFAULT_RETRIES) < 4)%nat
  ∧ ∃ tr out w,
      session 4 EXPONENTIAL (Fn failing) (Some 3) (Some 1) (Some throwing) tt
      = inr (Some (tr, out, w))
      ∧ ∀ e, out = Rejected e →
          count is_notify tr = Z.to_nat (js_or (Some 3) DEFAULT_RETRIES)
          ∧ ∃ ev, last tr = Some ev ∧ cause ev = Some e.
Proof.
  split; [vm_compute; lia|].
  apply (rejection_only_after_all_retries 4 EXPONENTIAL failing (Some 3)
           (Some 1) (Some throwing) tt).
  vm_compute; lia.
Defined.

Lemma retries_never_exceed_schedule_witness :
  (Z.to_nat (js_or (Some 3%Z) DEFAULT_RETRIES) < 4)%nat
  ∧ ∃ tr out w,
      session 4 CONSTANT (Fn failing) (Some 3) (Some 1) (Some throwing) tt
      = inr (Some (tr, out, w))
      ∧ count is_timer_start tr = count is_notify tr
      ∧ (count is_notify tr ≤ Z.to_nat (js_or (Some 3%Z) DEFAULT_RETRIES))%nat
      ∧ (1 ≤ count is_run tr ≤ 1 + count is_notify tr)%nat.
Proof.
  split; [vm_compute; lia|].
  apply (retries_never_exceed_schedule 4 CONSTANT failing (Some 3)
           (Some 1) (Some throwing) tt).
  vm_compute; lia.
Defined.

Lemma first_call_that_does_not_fail_ends_run_witness :
  failure_of (succeeding tt).1 = None
  ∧ ∃ w,
      session 0 CONSTANT (Fn succeeding) (Some 5) (Some 1) None tt
      = inr (Some ([EvRun (succeeding tt).1],
                   outcome_of (promise_of_call (succeeding tt).1), w))
      ∧ user w = (succeeding tt).2.
Proof.
  split; [reflexivity|].
  apply (first_call_that_does_not_fail_ends_run 0 CONSTANT succeeding
           (Some 5) (Some 1) None tt).
  reflexivity.
Defined.

Lemma failing_task_uses_every_retry_witness :
  (always_fails failing ∧ never_throws (default (noop (U:=unit)) None)
   ∧ (Z.to_nat (js_or (Some 3%Z) DEFAULT_RETRIES) < 4)%nat)
  ∧ ∃ tr out w,
      session 4 CONSTANT (Fn failing) (Some 3) (Some 1) None tt
      = inr (Some (tr, out, w))
      ∧ count is_notify tr = Z.to_nat (js_or (Some 3) DEFAULT_RETRIES)
      ∧ count is_run tr = S (Z.to_nat (js_or (Some 3) DEFAULT_RETRIES)).
Proof.
  assert (H1 : always_fails failing) by (intros u; eexists; reflexivity).
  assert (H2 : never_throws (default (noop (U:=unit)) None))
    by (intros c rs ivs e u; reflexivity).
  assert (H3 : (Z.to_nat (js_or (Some 3%Z) DEFAULT_RETRIES) < 4)%nat)
    by (vm_compute; lia).
  split; [done|].
  apply (failing_task_uses_every_retry 4 CONSTANT failing (Some 3) (Some 1)
           None tt H1 H2 H3).
Defined.

Lemma shown_counter_within_bounds_witness :
  (Z.to_nat (js_or (Some 3%Z) DEFAULT_RETRIES) < 4)%nat
  ∧ ∃ tr out w,
      session 4 EXPONENTIAL (Fn third) (Some 3) (Some 1) None 0%nat
      = inr (Some (tr, out, w))
      ∧ ∀ rs ivs, (rs, ivs) ∈ snapshots tr →
          ∃ done,
            rs = [done; js_or (Some 3) DEFAULT_RETRIES]
            ∧ 1 ≤ done ≤ js_or (Some 3) DEFAULT_RETRIES
            ∧ Z.of_nat (length ivs)
              = js_or (Some 3) DEFAULT_RETRIES - done + 1.
Proof.
  split; [vm_compute; lia|].
  apply (shown_counter_within_bounds 4 EXPONENTIAL third (Some 3) (Some 1)
           None 0%nat).
  vm_compute; lia.
Defined.

Lemma schedule_totals_witness :
  (0 ≤ 3 ∧ Binary64.held 100 ∧ Z.abs 100 * 2 ^ (3 - 1) < 2 ^ 1024)
  ∧ (Binary64.createConstantIntervals 3 (Binary64.Num 100)
     = Binary64.Num <$> createConstantIntervals 3 100
     ∧ total (createConstantIntervals 3 100) = 3 * 100
     ∧ Binary64.createExponentialIntervals 3 (Binary64.Num 100)
       = Binary64.Num <$> createExponentialIntervals 3 100
     ∧ total (createExponentialIntervals 3 100) = 100 * (2 ^ 3 - 1)).
Proof.
  assert (H1 : 0 ≤ 3) by lia.
  assert (H2 : Binary64.held 100) by (by exists 100, 0).
  assert (H3 : Z.abs 100 * 2 ^ (3 - 1) < 2 ^ 1024) by (by vm_compute).
  split; [done|]. apply (schedule_totals 3 100 H1 H2 H3).
Defined.

Lemma exhausted_run_waits_whole_schedule_witness :
  (1 ≤ 3
   ∧ 1 ≤ js_or (Some 1000) DEFAULT_INTERVAL
   ∧ match EXPONENTIAL with
     | CONSTANT => js_or (Some 1000) DEFAULT_INTERVAL
     | EXPONENTIAL => js_or (Some 1000) DEFAULT_INTERVAL * 2 ^ (3 - 1)
     end ≤ 2 ^ 31 - 1
   ∧ always_fails failing ∧ (Z.to_nat 3 < 4)%nat)
  ∧ ∃ tr out w,
      session 4 EXPONENTIAL (Fn failing) (Some 3) (Some 1000) None tt
      = inr (Some (tr, out, w))
      ∧ waited tr
        = match EXPONENTIAL with
          | CONSTANT => 3 * js_or (Some 1000) DEFAULT_INTERVAL
          | EXPONENTIAL => js_or (Some 1000) DEFAULT_INTERVAL * (2 ^ 3 - 1)
          end.
Proof.
  assert (H1 : 1 ≤ 3) by lia.
  assert (Hi : 1 ≤ js_or (Some 1000) DEFAULT_INTERVAL) by (by vm_compute).
  assert (Ht : match EXPONENTIAL with
               | CONSTANT => js_or (Some 1000) DEFAULT_INTERVAL
               | EXPONENTIAL =>
                   js_or (Some 1000) DEFAULT_INTERVAL * 2 ^ (3 - 1)
               end ≤ 2 ^ 31 - 1) by (by vm_compute).
  assert (H2 : always_fails failing) by (intros u; eexists; reflexivity).
  assert (H3 : (Z.to_nat 3 < 4)%nat) by (vm_compute; lia).
  split; [done|].
  apply (exhausted_run_waits_whole_schedule 4 EXPONENTIAL failing 3
           (Some 1000) None tt H1 Hi Ht H2 H3).
Defined.

Lemma negative_retries_never_retry_witness :
  (-2 < 0 ∧ (0 < 1)%nat)
  ∧ ∃ w,
      session 1 CONSTANT (Fn failing) (Some (-2)) (Some 1000) None tt
      = inr (Some ([EvRun (failing tt).1],
                   outcome_of (promise_of_call (failing tt).1), w)).
Proof.
  assert (H1 : -2 < 0) by lia. assert (H2 : (0 < 1)%nat) by lia.
  split; [done|].
  apply (negative_retries_never_retry 1 CONSTANT failing (-2) (Some 1000)
           None tt H1 H2).
Defined.

Lemma missing_interval_waits_default_witness :
  ((Some 0 = None ∨ Some 0 = Some 0)
   ∧ (Z.to_nat (js_or (Some 3%Z) DEFAULT_RETRIES) < 4)%nat)
  ∧ ∃ tr out w,
      session 4 CONSTANT (Fn failing) (Some 3) (Some 0) None tt
      = inr (Some (tr, out, w))
      ∧ ∀ d, d ∈ timers tr → d = Some 1000.
Proof.
  assert (H1 : Some 0 = None ∨ Some 0 = Some 0) by (right; reflexivity).
  assert (H2 : (Z.to_nat (js_or (Some 3%Z) DEFAULT_RETRIES) < 4)%nat)
    by (vm_compute; lia).
  split; [done|].
  apply (missing_interval_waits_default 4 failing (Some 3) (Some 0) None tt
           H1 H2).
Defined.

Lemma cloneContext_copies_into_new_arrays_witness :
  (ctx_retries a_context ∈ dom (heap a_world)
   ∧ ctx_intervals a_context ∈ dom (heap a_world))
  ∧ ∃ clone w',
      cloneContext a_context a_world = (clone, w')
      ∧ read (ctx_retries clone) w' = read (ctx_retries a_context) a_world
      ∧ read (ctx_intervals clone) w' = read (ctx_intervals a_context) a_world
      ∧ (ctx_retries clone ∉ dom (heap a_world))
      ∧ (ctx_intervals clone ∉ dom (heap a_world))
      ∧ ctx_retries clone ≠ ctx_intervals clone
      ∧ (∀ l, l ∈ dom (heap a_world) → heap w' !! l = heap a_world !! l)
      ∧ handed w' = handed a_world
      ∧ user w' = user a_world.
Proof.
  assert (H1 : ctx_retries a_context ∈ dom (heap a_world))
    by (apply elem_of_dom; eexists; reflexivity).
  assert (H2 : ctx_intervals a_context ∈ dom (heap a_world))
    by (apply elem_of_dom; eexists; reflexivity).
  split; [done|].
  apply (cloneContext_copies_into_new_arrays a_context a_world H1 H2).
Defined.

End MoreInstances.

Section MoreDeadlineInstances.
Import Deadline Samples More.

Lemma deadline_without_ms_is_the_task_witness :
  (Some 0 = None ∨ Some 0 = Some 0)
  ∧ session true (Fn slow) (Some 0) (Some recording) []
    = inr ([], promise_of_call (slow (U:=list Z) []).1,
           (slow (U:=list Z) []).2).
Proof.
  assert (H1 : Some 0 = None ∨ Some 0 = Some 0) by (right; reflexivity).
  split; [done|].
  apply (deadline_without_ms_is_the_task true slow (Some 0) (Some recording)
           [] H1).
Defined.

Lemma deadline_settles_by_ms_witness :
  0 < 500
  ∧ ∃ notified t s u',
      session true (Fn slow) (Some 500) (Some recording) []
      = inr (notified, Settles t s, u')
      ∧ t ≤ 500.
Proof.
  split; [lia|].
  apply (deadline_settles_by_ms true slow (Some recording) [] 500). lia.
Defined.


Lemma deadline_fulfils_only_as_the_task_witness :
  session true (Fn succeeding) (Some 10) (Some recording) []
  = inr ([], Settles 0 (Fulfill (VStr "test")), [])
  ∧ (promise_of_call (succeeding (U:=list Z) []).1
     = Settles 0 (Fulfill (VStr "test"))
     ∧ [] = @nil Z ∧ [] = (succeeding (U:=list Z) []).2).
Proof.
  assert (H1 : session true (Fn succeeding) (Some 10) (Some recording) []
               = inr ([], Settles 0 (Fulfill (VStr "test")), []))
    by reflexivity.
  split; [done|].
  apply (deadline_fulfils_only_as_the_task true succeeding (Some 10)
           (Some recording) [] [] 0 (VStr "test") [] H1).
Defined.
End MoreDeadlineInstances.
